(** * violin-companion: the notation parser, the navigation engine,
      the note namer and the tuning evaluator

    A shallow embedding of [src/music-sheet.ts], of the second
    [MusicSheetDisplay] of [src/music-sheet-display.ts] and of
    [src/violin-companion.ts], followed by the properties of them that the
    specification states.

    Conventions of the embedding.
    - A JavaScript string is a Rocq [string]; one character stands for one
      UTF-16 code unit below 256.
    - An array is a [list]; an index that is a natural number is a [nat],
      a number that may be negative (the cursor, the bookmark) is a [Z];
      integers are exact, as doubles are up to [2^53].
    - [obj[key]] on an object literal first looks at the literal's own
      properties and then at [Object.prototype], as the language does.
    - The durations of notes are exact rationals; the doubles of the code
      are these rationals for the integers up to [2^53] and for their
      quotients by the powers of two.
    - The namer and the tuner are embedded twice.  [Companion64] has them
      on IEEE 754 doubles, as the code computes them; of [Math.log2] it
      fixes the values that the language fixes and takes the others as a
      parameter, because the language leaves them to the implementation.
      [Companion] has them over the real numbers, with an exact
      logarithm: an idealisation, which the statements use only at a
      distance from every rounding boundary that is far wider than the
      rounding of a double. *)

From Stdlib Require Import List String Ascii Bool Arith ZArith QArith Lia.
From Stdlib Require Import DecimalString DecimalPos.
From Stdlib Require Import Reals Lra.
From Stdlib Require Floats.
Import ListNotations.

Local Open Scope string_scope.
Local Open Scope list_scope.
Local Open Scope nat_scope.

(* ================================================================== *)
(** ** The fragment of the JavaScript library that the sources use     *)
(* ================================================================== *)

Module JS.

(** White space of [String.prototype.trim] and of the regular
    expression class [\s] (WhiteSpace and LineTerminator), among the
    code units below 256: U+0009..U+000D, U+0020 and U+00A0. *)
Definition isWhiteSpace (c : ascii) : bool :=
  let n := nat_of_ascii c in
  ((9 <=? n) && (n <=? 13)) || (n =? 32) || (n =? 160).

Definition isDigit (c : ascii) : bool :=
  let n := nat_of_ascii c in (48 <=? n) && (n <=? 57).

(** Truthiness of a string: only the empty string is falsy. *)
Definition truthy (s : string) : bool :=
  match s with EmptyString => false | String _ _ => true end.

Fixpoint trimStart (s : string) : string :=
  match s with
  | EmptyString => EmptyString
  | String c s' => if isWhiteSpace c then trimStart s' else s
  end.

Fixpoint trimEnd (s : string) : string :=
  match s with
  | EmptyString => EmptyString
  | String c s' =>
      match trimEnd s' with
      | EmptyString => if isWhiteSpace c then EmptyString else String c EmptyString
      | t => String c t
      end
  end.

(** [s.trim()] *)
Definition trim (s : string) : string := trimEnd (trimStart s).

(** [s.split(sep)] for a separator of one character.  The result is
    never empty: a string without separator is returned whole. *)
Fixpoint split (sep : ascii) (s : string) : list string :=
  match s with
  | EmptyString => [EmptyString]
  | String c s' =>
      if Ascii.eqb c sep then EmptyString :: split sep s'
      else match split sep s' with
           | h :: t => String c h :: t
           | [] => [String c EmptyString]
           end
  end.

(** [s.split(/\s+/)]: the pieces between maximal runs of white space.
    [inRun] tells that the previous character belonged to a run. *)
Fixpoint splitWhiteSpaceFrom (inRun : bool) (s : string) : list string :=
  match s with
  | EmptyString => [EmptyString]
  | String c s' =>
      if isWhiteSpace c then
        if inRun then splitWhiteSpaceFrom true s'
        else EmptyString :: splitWhiteSpaceFrom true s'
      else match splitWhiteSpaceFrom false s' with
           | h :: t => String c h :: t
           | [] => [String c EmptyString]
           end
  end.

Definition splitWhiteSpace (s : string) : list string :=
  splitWhiteSpaceFrom false s.

(** [s.startsWith(p)] *)
Definition startsWith (p s : string) : bool := String.prefix p s.

(** [s.substring(n)] *)
Fixpoint substringFrom (n : nat) (s : string) : string :=
  match n, s with
  | O, _ => s
  | S _, EmptyString => EmptyString
  | S n', String _ s' => substringFrom n' s'
  end.

(** [s.substring(0, n)] *)
Fixpoint substringTo (n : nat) (s : string) : string :=
  match n, s with
  | O, _ => EmptyString
  | S _, EmptyString => EmptyString
  | S n', String c s' => String c (substringTo n' s')
  end.

(** [s.includes(c)] for one character. *)
Fixpoint includes (c : ascii) (s : string) : bool :=
  match s with
  | EmptyString => false
  | String d s' => Ascii.eqb d c || includes c s'
  end.

(** The longest prefix of decimal digits, and what follows it. *)
Fixpoint leadingDigits (s : string) : string :=
  match s with
  | EmptyString => EmptyString
  | String c s' => if isDigit c then String c (leadingDigits s') else EmptyString
  end.

Fixpoint afterDigits (s : string) : string :=
  match s with
  | EmptyString => EmptyString
  | String c s' => if isDigit c then afterDigits s' else s
  end.

(** The number that a string of decimal digits denotes, most
    significant digit first, continuing from [acc]. *)
Fixpoint decimalValue (acc : N) (s : string) : N :=
  match s with
  | EmptyString => acc
  | String c s' => decimalValue (acc * 10 + (N_of_ascii c - 48)) s'
  end.

(** [parseInt(s, 10)]: leading white space, an optional sign, then the
    longest run of decimal digits; [None] is [NaN].  On a string that
    holds only digits and dots, [parseInt(s)] without a radix is the same
    function (no [0x] prefix can occur).  The result is the exact
    integer: it is the double of the code up to [2^53] in absolute
    value, beyond which the code rounds. *)
Definition parseInt (s : string) : option Z :=
  let s1 := trimStart s in
  let '(negative, s2) :=
    match s1 with
    | String "-" r => (true, r)
    | String "+" r => (false, r)
    | _ => (false, s1)
    end in
  match leadingDigits s2 with
  | EmptyString => None
  | ds => let v := Z.of_N (decimalValue 0 ds) in
          Some (if negative then (- v)%Z else v)
  end.

(** [n.toString()] for an integer: its decimal digits, after a [-] when
    it is negative.  These are the digits that the language writes for
    the integers up to [2^53] in absolute value; beyond, the language
    writes the shortest digits that denote the same double, and from
    [10^21] on an exponent, which this function does not
    ([Double.toString] does). *)
Definition toString (n : Z) : string :=
  NilZero.string_of_int (Z.to_int n).

(** A JavaScript number as the parser of durations produces them:
    the quotient of two parsed integers, or a parsed decimal.  A finite
    number is the exact rational, where the code has the double nearest
    to it. *)
Inductive Number : Type :=
| NaN
| Infinity
| Finite (q : Q).

(** [a / b] for the results of two [parseInt] on unsigned digits: the
    exact quotient, which is the double of the code when [a] is at most
    [2^53] and [b] is a power of two up to [2^53]. *)
Definition divide (a b : option Z) : Number :=
  match a, b with
  | Some x, Some y =>
      if (y =? 0)%Z then (if (x =? 0)%Z then NaN else Infinity)
      else Finite (Qmake x (Z.to_pos y))
  | _, _ => NaN
  end.

(** [parseFloat(s)] on a string of digits and dots: the longest prefix
    of the form digits, digits [.] digits, or [.] digits.  The result is
    the exact decimal; the double of the code is the nearest to it, and
    is equal to it for the integers up to [2^53]. *)
Definition parseFloat (s : string) : Number :=
  let ip := leadingDigits s in
  let fp := match afterDigits s with
            | String "." r => leadingDigits r
            | _ => EmptyString
            end in
  match ip, fp with
  | EmptyString, EmptyString => NaN
  | _, _ =>
      Finite (Qmake (Z.of_N (decimalValue (decimalValue 0 ip) fp))
                    (Z.to_pos (10 ^ Z.of_nat (String.length fp))))
  end.

(** [a[i]] for an array [a] and an integer [i]: [undefined] unless
    [i] is an index of [a]. *)
Definition at_ {A : Type} (a : list A) (i : Z) : option A :=
  if (i <? 0)%Z then None else nth_error a (Z.to_nat i).

(** The names that every object literal inherits from
    [Object.prototype]; each is bound to a function or an object, so
    each is truthy and none is a string or a number. *)
Definition objectPrototype : list string :=
  [ "constructor"; "hasOwnProperty"; "isPrototypeOf";
    "propertyIsEnumerable"; "toLocaleString"; "toString"; "valueOf";
    "__proto__"; "__defineGetter__"; "__defineSetter__";
    "__lookupGetter__"; "__lookupSetter__" ].

(** The result of [obj[key]] on an object literal. *)
Inductive Property (A : Type) : Type :=
| Own (a : A)
| Inherited (key : string)
| Undefined.
Arguments Own {A} a.
Arguments Inherited {A} key.
Arguments Undefined {A}.

Fixpoint ownProperty {A : Type} (obj : list (string * A)) (key : string)
  : option A :=
  match obj with
  | [] => None
  | (k, v) :: rest => if String.eqb k key then Some v else ownProperty rest key
  end.

Definition get {A : Type} (obj : list (string * A)) (key : string)
  : Property A :=
  match ownProperty obj key with
  | Some v => Own v
  | None =>
      if existsb (String.eqb key) objectPrototype then Inherited key
      else Undefined
  end.

End JS.

(* ================================================================== *)
(** ** [src/music-sheet.ts]: the data model and the notation parser     *)
(* ================================================================== *)

Module Sheet.
Import JS.

(** The value stored in the [pitch] field of a note.  It is read from
    [noteMap[noteLetter]]: one of the strings of the table or, when the
    letter form names a member of [Object.prototype], that member. *)
Inductive Pitch : Type :=
| Name (s : string)
| PrototypeMember (key : string).

Record Note : Type := mkNote
  { pitch : Pitch;
    duration : Number;
    measure : nat;
    index : nat }.

Record Measure : Type := mkMeasure
  { number : nat;
    notes : list Note;
    measureTimeSignature : option string }.

Record MusicSheet : Type := mkMusicSheet
  { title : string;
    composer : option string;
    key : string;
    timeSignature : string;
    measures : list Measure;
    allNotes : list Note }.

Definition noteMap : list (string * string) :=
  [ ("C", "C4"); ("D", "D4"); ("E", "E4"); ("F", "F4"); ("G", "G4");
    ("A", "A4"); ("B", "B4");
    ("c", "C5"); ("d", "D5"); ("e", "E5"); ("f", "F5"); ("g", "G5");
    ("a", "A5"); ("b", "B5");
    ("^C", "C#4"); ("^D", "D#4"); ("^F", "F#4"); ("^G", "G#4"); ("^A", "A#4");
    ("^c", "C#5"); ("^d", "D#5"); ("^f", "F#5"); ("^g", "G#5"); ("^a", "A#5");
    ("_D", "D4"); ("_E", "E4"); ("_G", "G4"); ("_A", "A4"); ("_B", "B4");
    ("_d", "D5"); ("_e", "E5"); ("_g", "G5"); ("_a", "A5"); ("_b", "B5") ].

(** The characters of the class [[0-9/.]]. *)
Definition isDurationChar (c : ascii) : bool :=
  isDigit c || Ascii.eqb c "/" || Ascii.eqb c ".".

(** [token.match(/([0-9/.]+)$/)]: the captured group is the longest
    suffix of the token made of duration characters; there is no match
    when the last character is not one of them. *)
Fixpoint durationMatch (token : string) : option string :=
  match token with
  | EmptyString => None
  | String c EmptyString =>
      if isDurationChar c then Some (String c EmptyString) else None
  | String c t =>
      match durationMatch t with
      | Some d =>
          if String.eqb d t && isDurationChar c then Some (String c d)
          else Some d
      | None => None
      end
  end.

(** The value of [duration] after the [if (durationMatch)] block. *)
Definition parseDuration (durationStr : string) : Number :=
  if includes "/" durationStr then
    let parts := split "/" durationStr in
    divide (parseInt (nth 0 parts EmptyString))
           (parseInt (nth 1 parts EmptyString))
  else parseFloat durationStr.

Definition parseNote (token : string) (measureNum noteIndex : nat)
  : option Note :=
  let '(noteLetter, duration) :=
    match durationMatch token with
    | Some durationStr =>
        (substringTo (String.length token - String.length durationStr) token,
         parseDuration durationStr)
    | None => (token, Finite 1)
    end in
  match get noteMap noteLetter with
  | Own pitch =>
      if truthy pitch then Some (mkNote (Name pitch) duration measureNum noteIndex)
      else None
  | Inherited member =>
      Some (mkNote (PrototypeMember member) duration measureNum noteIndex)
  | Undefined => None
  end.

(** The first loop of [parseABCNotation]: one step for one line.  The
    state is the [metadata] object and [noteString]. *)
Definition classifyLine (acc : list (string * string) * string)
    (line : string) : list (string * string) * string :=
  let '(metadata, noteString) := acc in
  let trimmed := trim line in
  if startsWith "T:" trimmed then
    (("title", trim (substringFrom 2 trimmed)) :: metadata, noteString)
  else if startsWith "C:" trimmed then
    (("composer", trim (substringFrom 2 trimmed)) :: metadata, noteString)
  else if startsWith "K:" trimmed then
    (("key", trim (substringFrom 2 trimmed)) :: metadata, noteString)
  else if startsWith "M:" trimmed then
    (("timeSignature", trim (substringFrom 2 trimmed)) :: metadata, noteString)
  else if truthy trimmed && negb (startsWith "%" trimmed) then
    (metadata, (noteString ++ " " ++ trimmed)%string)
  else acc.

(** [metadata.k || dflt], for a key that [Object.prototype] lacks. *)
Definition orDefault (metadata : list (string * string)) (k dflt : string)
  : string :=
  match ownProperty metadata k with
  | Some v => if truthy v then v else dflt
  | None => dflt
  end.

(** [noteString.split('|').filter(m => m.trim())] *)
Definition measureStringsOf (noteString : string) : list string :=
  filter (fun m => truthy (trim m)) (split "|" noteString).

(** [measureStr.trim().split(/\s+/)] *)
Definition noteTokensOf (measureStr : string) : list string :=
  splitWhiteSpace (trim measureStr).

(** The loop over the tokens of one measure.  The state is
    [measureNotes], [allNotes] and [noteIndex]. *)
Fixpoint parseTokens (noteTokens : list string) (measureNum : nat)
    (measureNotes allNotes : list Note) (noteIndex : nat)
  : list Note * list Note * nat :=
  match noteTokens with
  | [] => (measureNotes, allNotes, noteIndex)
  | token :: rest =>
      if negb (truthy token) then
        parseTokens rest measureNum measureNotes allNotes noteIndex
      else
        match parseNote token measureNum noteIndex with
        | Some note =>
            parseTokens rest measureNum
              (measureNotes ++ [note]) (allNotes ++ [note]) (S noteIndex)
        | None =>
            parseTokens rest measureNum measureNotes allNotes noteIndex
        end
  end.

(** [measureStrings.forEach((measureStr, measureNum) => ...)], from
    position [measureNum] on.  The state is [measures], [allNotes] and
    [noteIndex]. *)
Fixpoint parseMeasures (measureStrings : list string) (measureNum : nat)
    (timeSignature : string)
    (measures : list Measure) (allNotes : list Note) (noteIndex : nat)
  : list Measure * list Note :=
  match measureStrings with
  | [] => (measures, allNotes)
  | measureStr :: rest =>
      let '(measureNotes, allNotes', noteIndex') :=
        parseTokens (noteTokensOf measureStr) measureNum [] allNotes noteIndex in
      let measures' :=
        if 0 <? List.length measureNotes then
          measures ++
            [mkMeasure measureNum measureNotes
               (if measureNum =? 0 then Some timeSignature else None)]
        else measures in
      parseMeasures rest (S measureNum) timeSignature
        measures' allNotes' noteIndex'
  end.

(** The first loop over all the lines: [metadata] and [noteString]
    when it ends. *)
Definition scanLines (abcString : string) : list (string * string) * string :=
  let lines := split "010" (trim abcString) in
  fold_left classifyLine lines ([], EmptyString).

Definition parseABCNotation (abcString : string) : MusicSheet :=
  let '(metadata, noteString) := scanLines abcString in
  let title := orDefault metadata "title" "Untitled" in
  let key := orDefault metadata "key" "C" in
  let timeSignature := orDefault metadata "timeSignature" "4/4" in
  let '(measures, allNotes) :=
    parseMeasures (measureStringsOf noteString) 0 timeSignature [] [] 0 in
  mkMusicSheet title (ownProperty metadata "composer") key timeSignature
    measures allNotes.

Definition sampleSheets : list (string * string) :=
  [ ("twinkle-twinkle",
"T:Twinkle Twinkle Little Star
C:Traditional
M:4/4
K:C
C C G G | A A G2 | F F E E | D D C2 |
G G F F | E E D2 | G G F F | E E D2 |
C C G G | A A G2 | F F E E | D D C2 |");
    ("ode-to-joy",
"T:Ode to Joy (simplified)
C:Beethoven
M:4/4
K:C
E E F G | G F E D | C C D E | E D D2 |
E E F G | G F E D | C C D E | D C C2 |");
    ("mary-lamb",
"T:Mary Had a Little Lamb
C:Traditional
M:4/4
K:C
E D C D | E E E2 | D D D2 | E G G2 |
E D C D | E E E E | D D E D | C2 C2 |");
    ("simple-scale",
"T:Simple G Major Scale
C:Exercise
M:4/4
K:G
G A B c | d e ^f g | g ^f e d | c B A G |") ].

End Sheet.

(* ================================================================== *)
(** ** [src/music-sheet-display.ts]: the navigation engine              *)
(* ================================================================== *)

Module Display.
Import JS Sheet.
Local Open Scope Z_scope.

(** [localStorage]: the durable store, a list of bindings of which the
    first one for a key counts. *)
Definition Storage : Type := list (string * string).

Definition getItem (store : Storage) (k : string) : option string :=
  ownProperty store k.

Definition setItem (store : Storage) (k v : string) : Storage :=
  (k, v) :: store.

Definition bookmarkKey : string := "violin-companion-bookmark".

(** The reactive fields of [MusicSheetDisplay], and the store. *)
Record State : Type := mkState
  { sheet : option MusicSheet;
    currentNoteIndex : Z;
    bookmark : Z;
    selectedSheet : string;
    localStorage : Storage }.

Definition withCursor (s : State) (i : Z) : State :=
  mkState (sheet s) i (bookmark s) (selectedSheet s) (localStorage s).

Definition withBookmark (s : State) (b : Z) : State :=
  mkState (sheet s) (currentNoteIndex s) b (selectedSheet s) (localStorage s).

(** The state of a component that has just been constructed. *)
Definition initial (store : Storage) : State :=
  mkState None 0 0 "twinkle-twinkle" store.

(** How a method ends: normally, or by throwing. *)
Inductive Completion (A : Type) : Type :=
| Normal (a : A)
| Throw (error : string).
Arguments Normal {A} a.
Arguments Throw {A} error.

Definition saveBookmark (s : State) : State :=
  mkState (sheet s) (currentNoteIndex s) (bookmark s) (selectedSheet s)
    (setItem (localStorage s) bookmarkKey (toString (bookmark s))).

(** [parseInt(saved, 10) || 0] *)
Definition parseIntOrZero (saved : string) : Z :=
  match parseInt saved with
  | Some n => n
  | None => 0
  end.

Definition loadBookmark (s : State) : State :=
  match getItem (localStorage s) bookmarkKey with
  | Some saved =>
      if truthy saved then withBookmark s (parseIntOrZero saved) else s
  | None => s
  end.

(** The body of [loadSheet] once [parseABCNotation(abcNotation)] has
    returned [sh]. *)
Definition showSheet (sh : MusicSheet) (sheetName : string) (s : State)
  : State :=
  let s1 := mkState (Some sh) (currentNoteIndex s) (bookmark s) sheetName
              (localStorage s) in
  let s2 :=
    if bookmark s1 >=? Z.of_nat (List.length (allNotes sh)) then
      saveBookmark (withBookmark s1 0)
    else s1 in
  withCursor s2 (bookmark s2).

(** [loadSheet] over a table of sheets; the component uses
    [sampleSheets].  A name that the table inherits from
    [Object.prototype] is bound to a function, on which
    [parseABCNotation] throws at [abcString.trim()]. *)
Definition loadSheetFrom (sheets : list (string * string))
    (sheetName : string) (s : State) : Completion State :=
  match get sheets sheetName with
  | Own abcNotation =>
      if truthy abcNotation then
        Normal (showSheet (parseABCNotation abcNotation) sheetName s)
      else Normal s
  | Inherited _ => Throw "TypeError: abcString.trim is not a function"
  | Undefined => Normal s
  end.

Definition loadSheet : string -> State -> Completion State :=
  loadSheetFrom sampleSheets.

Definition connectedCallback (s : State) : Completion State :=
  loadSheet (selectedSheet s) (loadBookmark s).

(** The event that [setBookmark] dispatches is not modelled. *)
Definition setBookmark (s : State) : State :=
  saveBookmark (withBookmark s (currentNoteIndex s)).

Definition goToBookmark (s : State) : State := withCursor s (bookmark s).

Definition reset (s : State) : State := withCursor s 0.

Definition previousNote (s : State) : State :=
  if currentNoteIndex s >? 0 then withCursor s (currentNoteIndex s - 1)
  else s.

Definition nextNote (s : State) : State :=
  match sheet s with
  | Some sh =>
      if currentNoteIndex s <? Z.of_nat (List.length (allNotes sh)) - 1
      then withCursor s (currentNoteIndex s + 1)
      else s
  | None => s
  end.

(** The inner loop of [previousMeasure], [for (let j = ...; j >= 0; j--)],
    entered at [j] with [currentNoteIndex = cur]; the result is the
    value of [currentNoteIndex] when the loop is left.  Every [j] is
    below the cursor, so [allNotes[j]] is defined. *)
Fixpoint startOfRun (allNotes : list Note) (targetMeasure : nat)
    (j : nat) (cur : Z) : Z :=
  match nth_error allNotes j with
  | Some note =>
      if (measure note =? targetMeasure)%nat then
        match j with
        | O => Z.of_nat j
        | S j' => startOfRun allNotes targetMeasure j' (Z.of_nat j)
        end
      else cur
  | None => cur
  end.

(** The outer loop of [previousMeasure], [for (let i = ...; i >= 0; i--)],
    entered at [i = k - 1]: [Some c] when the loop returns with the
    cursor at [c], [None] when it runs to its end. *)
Fixpoint findPrevious (allNotes : list Note) (currentMeasure : nat)
    (k : nat) (cur : Z) : option Z :=
  match k with
  | O => None
  | S i =>
      match nth_error allNotes i with
      | Some note =>
          if (measure note <? currentMeasure)%nat then
            Some (startOfRun allNotes (measure note) i cur)
          else findPrevious allNotes currentMeasure i cur
      | None => findPrevious allNotes currentMeasure i cur
      end
  end.

Definition previousMeasure (s : State) : State :=
  match sheet s with
  | None => s
  | Some sh =>
      match at_ (allNotes sh) (currentNoteIndex s) with
      | None => s
      | Some current =>
          match findPrevious (allNotes sh) (measure current)
                  (Z.to_nat (currentNoteIndex s)) (currentNoteIndex s) with
          | Some c => withCursor s c
          | None => withCursor s 0
          end
      end
  end.

(** The loop of [nextMeasure] over the notes [rest] that are left,
    the first of which has index [i]. *)
Fixpoint findNext (rest : list Note) (currentMeasure : nat) (i : nat)
  : option nat :=
  match rest with
  | [] => None
  | note :: rest' =>
      if (currentMeasure <? measure note)%nat then Some i
      else findNext rest' currentMeasure (S i)
  end.

Definition nextMeasure (s : State) : State :=
  match sheet s with
  | None => s
  | Some sh =>
      match at_ (allNotes sh) (currentNoteIndex s) with
      | None => s
      | Some current =>
          let i := S (Z.to_nat (currentNoteIndex s)) in
          match findNext (skipn i (allNotes sh)) (measure current) i with
          | Some c => withCursor s (Z.of_nat c)
          | None => s
          end
      end
  end.

Definition getCurrentNote (s : State) : option Note :=
  match sheet s with
  | None => None
  | Some sh => at_ (allNotes sh) (currentNoteIndex s)
  end.

(** [detectedNote === pitch] for a string [detectedNote]. *)
Definition strictEquals (detectedNote : string) (p : Pitch) : bool :=
  match p with
  | Name n => String.eqb detectedNote n
  | PrototypeMember _ => false
  end.

Definition checkNote (detectedNote : string) (s : State) : bool * State :=
  match getCurrentNote s with
  | None => (false, s)
  | Some currentNote =>
      if strictEquals detectedNote (pitch currentNote) then (true, nextNote s)
      else (false, s)
  end.

End Display.

(* ================================================================== *)
(** ** [src/violin-companion.ts]: the note namer and the tuning evaluator,
       over the real numbers                                            *)
(* ================================================================== *)

(** In this module a frequency is a real number and the logarithm is
    exact.  The code computes on doubles ([Companion64] below): the two
    agree wherever the rounding of the quotient and of the logarithm,
    some [10^-13] of a cent, cannot move the semitone across a half or
    the deviation across 10 cents. *)
Module Companion.
Import JS.
Local Open Scope R_scope.

Definition noteFrequencies : list (string * R) :=
  [ ("G3", 196.00); ("G#3", 207.65); ("A3", 220.00); ("A#3", 233.08);
    ("B3", 246.94); ("C4", 261.63); ("C#4", 277.18); ("D4", 293.66);
    ("D#4", 311.13); ("E4", 329.63); ("F4", 349.23); ("F#4", 369.99);
    ("G4", 392.00); ("G#4", 415.30); ("A4", 440.00); ("A#4", 466.16);
    ("B4", 493.88); ("C5", 523.25); ("C#5", 554.37); ("D5", 587.33);
    ("D#5", 622.25); ("E5", 659.25); ("F5", 698.46); ("F#5", 739.99);
    ("G5", 783.99); ("G#5", 830.61); ("A5", 880.00) ].

(** The fields of [ViolinCompanion] that the namer and the tuner read
    and write. *)
Record State : Type := mkState
  { currentNote : string;
    currentFrequency : R;
    targetNote : string;
    inTune : bool }.

Definition withInTune (s : State) (b : bool) : State :=
  mkState (currentNote s) (currentFrequency s) (targetNote s) b.

(** [Math.log2(x)] over the reals.  [None] stands for the results that
    are not finite numbers: [-Infinity] at zero and [NaN] below. *)
Definition log2 (x : R) : option R :=
  if Rlt_dec 0 x then Some (ln x / ln 2) else None.

(** [Math.round(x)]: the nearest integer, a tie going upwards. *)
Definition round (x : R) : Z := Int_part (x + / 2).

(** [Math.floor(x)] *)
Definition floor (x : R) : Z := Int_part x.

(** [a < b] as a boolean. *)
Definition ltb (a b : R) : bool := if Rlt_dec a b then true else false.

(** Truthiness of a number: zero is falsy. *)
Definition nonZero (x : R) : bool := if Req_dec_T x 0 then false else true.

Definition notes : list string :=
  ["C"; "C#"; "D"; "D#"; "E"; "F"; "F#"; "G"; "G#"; "A"; "A#"; "B"].

(** When [Math.log2] is not finite, [noteIndex] is [NaN],
    [notes[noteIndex]] is [undefined], and the result is ["--"]. *)
Definition frequencyToNote (frequency : R) : string :=
  let A4 := 440 in
  match log2 (frequency / A4) with
  | Some l =>
      let semitone := 69 + 12 * l in
      let noteIndex := Z.rem (Z.rem (round semitone) 12 + 12) 12 in
      let octave := (floor (IZR (round semitone) / 12) - 1)%Z in
      match at_ notes noteIndex with
      | Some note =>
          if (noteIndex >=? 0)%Z
             && (noteIndex <? Z.of_nat (List.length notes))%Z
             && truthy note
          then (note ++ toString octave)%string
          else "--"%string
      | None => "--"%string
      end
  | None => "--"%string
  end.

(** A target that [noteFrequencies] inherits from [Object.prototype] is
    bound to a function: [frequency / targetFreq] is then [NaN], and so
    is [cents].  A comparison with [NaN] or of [Infinity] below 10 is
    false. *)
Definition checkTuning (frequency : R) (s : State) : State :=
  match get noteFrequencies (targetNote s) with
  | Own targetFreq =>
      if nonZero targetFreq then
        match log2 (frequency / targetFreq) with
        | Some l =>
            let cents := 1200 * l in
            withInTune s (ltb (Rabs cents) 10)
        | None => withInTune s false
        end
      else s
  | Inherited _ => withInTune s false
  | Undefined => s
  end.

Definition setTargetNote (note : string) (s : State) : State :=
  let s1 := mkState (currentNote s) (currentFrequency s) note (inTune s) in
  if Rlt_dec 0 (currentFrequency s1) then checkTuning (currentFrequency s1) s1
  else s1.

End Companion.

(* ================================================================== *)
(** ** Notions that the statements use                                  *)
(* ================================================================== *)

Module Notions.
Import JS Sheet.

(** The pitch that the parser reads in a token, if it reads one. *)
Definition recognize (token : string) : option Pitch :=
  option_map pitch (parseNote token 0 0).

(** The pitches read in a list of tokens, in order. *)
Fixpoint recognized (tokens : list string) : list Pitch :=
  match tokens with
  | [] => []
  | token :: rest =>
      match recognize token with
      | Some p => p :: recognized rest
      | None => recognized rest
      end
  end.

(** The segments between bars that are not blank, and their tokens. *)
Definition segmentsOf (text : string) : list string :=
  measureStringsOf (snd (scanLines text)).

(** A blank string: every character of it is white space. *)
Fixpoint blank (s : string) : bool :=
  match s with
  | EmptyString => true
  | String c s' => isWhiteSpace c && blank s'
  end.

Definition tokensOf (text : string) : list string :=
  flat_map noteTokensOf (segmentsOf text).

(** The notes that the tokens of one measure add, the first of them
    receiving [noteIndex]. *)
Fixpoint tokenNotes (tokens : list string) (measureNum noteIndex : nat)
  : list Note :=
  match tokens with
  | [] => []
  | token :: rest =>
      if truthy token then
        match parseNote token measureNum noteIndex with
        | Some note => note :: tokenNotes rest measureNum (S noteIndex)
        | None => tokenNotes rest measureNum noteIndex
        end
      else tokenNotes rest measureNum noteIndex
  end.

(** The measures that the segments add, the first segment having
    position [measureNum]. *)
Fixpoint measuresFrom (segments : list string) (measureNum : nat)
    (timeSignature : string) (noteIndex : nat) : list Measure :=
  match segments with
  | [] => []
  | segment :: rest =>
      let new := tokenNotes (noteTokensOf segment) measureNum noteIndex in
      (if 0 <? List.length new then
         [mkMeasure measureNum new
            (if measureNum =? 0 then Some timeSignature else None)]
       else [])
      ++ measuresFrom rest (S measureNum) timeSignature
           (noteIndex + List.length new)
  end.

(** The positions, counted from [k], of the segments in which at least
    one token is recognized. *)
Fixpoint soundingPositions (segments : list string) (k : nat) : list nat :=
  match segments with
  | [] => []
  | segment :: rest =>
      match recognized (noteTokensOf segment) with
      | [] => soundingPositions rest (S k)
      | _ :: _ => k :: soundingPositions rest (S k)
      end
  end.

(** The natural pitch of a letter: octave 4 in upper case, octave 5 in
    lower case. *)
Definition naturalPitch (letter : ascii) : string :=
  let n := nat_of_ascii letter in
  if 97 <=? n then String (ascii_of_nat (n - 32)) "5"
  else String letter "4".

(** The letters of which [noteMap] has a flat. *)
Definition flatLetters : list ascii :=
  ["D"; "E"; "G"; "A"; "B"; "d"; "e"; "g"; "a"; "b"]%char.

(** The duration that a suffix of duration characters denotes. *)
Definition durationOf (suffix : string) : Number :=
  match suffix with
  | EmptyString => Finite 1
  | _ => parseDuration suffix
  end.

Fixpoint allDuration (s : string) : bool :=
  match s with
  | EmptyString => true
  | String c s' => isDurationChar c && allDuration s'
  end.

(** *** Navigation *)

(** A call of [previousNote()] or of [nextNote()]. *)
Inductive Move : Type := Previous | Next.

Definition move (m : Move) (s : Display.State) : Display.State :=
  match m with
  | Previous => Display.previousNote s
  | Next => Display.nextNote s
  end.

Definition moves (ms : list Move) (s : Display.State) : Display.State :=
  fold_left (fun s' m => move m s') ms s.

(** The measures of the notes never decrease along the list. *)
Definition measureOrdered (ns : list Note) : Prop :=
  forall i j a b,
    i <= j -> nth_error ns i = Some a -> nth_error ns j = Some b ->
    measure a <= measure b.

(** [j] is the position of the first note of measure [m]. *)
Definition firstWithMeasure (ns : list Note) (m j : nat) : Prop :=
  (exists x, nth_error ns j = Some x /\ measure x = m) /\
  (forall i x, nth_error ns i = Some x -> measure x = m -> j <= i).

(** [m] is the highest measure of a note that lies strictly below [cm]. *)
Definition highestBelow (ns : list Note) (cm m : nat) : Prop :=
  m < cm /\
  (exists x, In x ns /\ measure x = m) /\
  (forall x, In x ns -> measure x < cm -> measure x <= m).

(** [j] is the position of the first note of a measure above [cm]. *)
Definition firstAbove (ns : list Note) (cm j : nat) : Prop :=
  (exists x, nth_error ns j = Some x /\ cm < measure x) /\
  (forall i x, nth_error ns i = Some x -> cm < measure x -> j <= i).

(** A sheet of eight notes in two measures of four. *)
Definition eightNotes : MusicSheet := parseABCNotation "C C G G | A A G G |".

(** *** Naming and tuning *)

(** The name of the semitone number [n], after the specification: the
    entry [((n mod 12) + 12) mod 12] of the chromatic table, followed by
    the octave [floor(n / 12) - 1]. *)
Definition semitoneName (n : Z) : string :=
  (nth (Z.to_nat (((n mod 12) + 12) mod 12)) Companion.notes EmptyString
   ++ toString (Companion.floor (IZR n / 12) - 1))%string.

(** The semitone number of a frequency, after the specification:
    [round(69 + 12 * log2(f / 440))]. *)
Definition semitoneOf (f : R) : Z :=
  Companion.round (69 + 12 * (ln (f / 440) / ln 2))%R.

(** The deviation in cents of [f] from [ref], after the
    specification: [1200 * log2(f / ref)]. *)
Definition cents (f ref : R) : R := (1200 * (ln (f / ref) / ln 2))%R.

(** A string of the form letter, optional [#], octave, the letter being
    one of [A] to [G] and the octave an integer. *)
Definition isNoteLetter (c : ascii) : bool :=
  let n := nat_of_ascii c in (65 <=? n) && (n <=? 71).

(** The characters of the names with sharps: the letters [A] to [G],
    [#], the digits and the sign of the octave.  A flat would need
    another character, such as the [b] of [Bb4]. *)
Definition isSharpNameChar (c : ascii) : bool :=
  isNoteLetter c || Ascii.eqb c "#" || Ascii.eqb c "-" || isDigit c.

Fixpoint allSharpNameChars (s : string) : bool :=
  match s with
  | EmptyString => true
  | String c s' => isSharpNameChar c && allSharpNameChars s'
  end.

Fixpoint allDigits (s : string) : bool :=
  match s with
  | EmptyString => true
  | String c s' => isDigit c && allDigits s'
  end.

Definition isOctave (s : string) : bool :=
  match s with
  | EmptyString => false
  | String "-" r => truthy r && allDigits r
  | _ => allDigits s
  end.

Definition isNoteName (s : string) : bool :=
  match s with
  | EmptyString => false
  | String letter (String "#" r) => isNoteLetter letter && isOctave r
  | String letter r => isNoteLetter letter && isOctave r
  end.

End Notions.

(* ================================================================== *)
(** ** More of the sources: the measures on display, the session       *)
(* ================================================================== *)

Module View.
Import JS Sheet Display.
Local Open Scope Z_scope.

(** An entry of the result of [getDisplayMeasures].  The field
    [shown] is the entry's [measure]: [measures[k]] is [undefined] when
    [k] is not an index. *)
Record DisplayMeasure : Type := mkDisplayMeasure
  { shown : option Measure;
    opacity : string }.

Definition getDisplayMeasures (s : State) : list DisplayMeasure :=
  match sheet s with
  | None => []
  | Some sh =>
      match at_ (allNotes sh) (currentNoteIndex s) with
      | None => []
      | Some current =>
          let currentMeasure := Z.of_nat (measure current) in
          (if currentMeasure >? 0 then
             [mkDisplayMeasure (at_ (measures sh) (currentMeasure - 1))
                "opacity-30"]
           else [])
          ++ [mkDisplayMeasure (at_ (measures sh) currentMeasure) "opacity-100"]
          ++ (if currentMeasure <? Z.of_nat (List.length (measures sh)) - 1 then
                [mkDisplayMeasure (at_ (measures sh) (currentMeasure + 1))
                   "opacity-30"]
              else [])
      end
  end.

End View.

Module Session.
Import JS Companion.
Local Open Scope R_scope.

(** The reactive fields of [ViolinCompanion]: those of the tuner, the
    listening flag and the clarity.  The audio context, the analyser and
    the animation frames are not modelled. *)
Record State : Type := mkSession
  { tuner : Companion.State;
    isListening : bool;
    clarity : R }.

(** The number that the literal [0.9] denotes: the double nearest to
    nine tenths, [8106479329266893 / 2^53]. *)
Definition ninetenths : R := 8106479329266893 / 9007199254740992.

(** The step of [updatePitch] on the pair that [findPitch] returns:
    the frame is used when the frequency is truthy and the clarity is
    above 0.9, and dropped otherwise. *)
Definition updatePitch (frequency clarity' : R) (s : State) : State :=
  if nonZero frequency && ltb ninetenths clarity' then
    let t := tuner s in
    let t1 := Companion.mkState (frequencyToNote frequency) frequency
                (targetNote t) (inTune t) in
    mkSession (checkTuning frequency t1) (isListening s) clarity'
  else s.

Definition stopListening (s : State) : State :=
  mkSession (Companion.mkState "--" 0 (targetNote (tuner s)) false) false 0.

Definition setTargetNote (note : string) (s : State) : State :=
  mkSession (Companion.setTargetNote note (tuner s)) (isListening s) (clarity s).

(** The fields of a component that has just been constructed. *)
Definition initial : State :=
  mkSession (Companion.mkState "--" 0 "A4" false) false 0.

End Session.

Module Score.
Import JS.
Local Open Scope Z_scope.

(** The first [MusicSheetDisplay] of [src/music-sheet-display.ts] reads
    its notes from a score.  Of a note of the score the code reads
    [note.Pitch], which may be missing, and in it the three numbers
    [FundamentalNote], [Octave] and [Accidental], integers here. *)
Record Pitch : Type := mkPitch
  { FundamentalNote : Z;
    Octave : Z;
    Accidental : Z }.

Definition noteNames : list string := ["C"; "D"; "E"; "F"; "G"; "A"; "B"].

Definition flatToSharp : list (string * string) :=
  [("D", "C#"); ("E", "D#"); ("G", "F#"); ("A", "G#"); ("B", "A#")].

(** [flatToSharp[noteName] || noteName]; [noteName] is one of the seven
    letters, none of which names a member of [Object.prototype]. *)
Definition sharpOfFlat (noteName : string) : string :=
  match ownProperty flatToSharp noteName with
  | Some v => if truthy v then v else noteName
  | None => noteName
  end.

Definition getNoteString (notePitch : option Pitch) : string :=
  match notePitch with
  | None => EmptyString
  | Some pitch =>
      let step := FundamentalNote pitch in
      let octave := Octave pitch in
      let alter := Accidental pitch in
      if (step >=? 0) && (step <? 7) then
        let noteName := nth (Z.to_nat step) noteNames EmptyString in
        let standardOctave := octave + 3 in
        let noteName' :=
          if alter =? 1 then (noteName ++ "#")%string
          else if alter =? -1 then sharpOfFlat noteName
          else noteName in
        (noteName' ++ toString standardOctave)%string
      else EmptyString
  end.

End Score.

Module MoreNotions.
Import JS Sheet Display Notions.

(** *** The score *)

(** The steps and accidentals of the score that denote one of the twelve
    semitones of the namer's table, with the place of that semitone in
    the octave: the seven naturals, the five sharps and the five flats of
    the black keys. *)
Definition scoreSemitones : list (Z * Z * Z) :=
  [ (0, 0, 0); (1, 0, 2); (2, 0, 4); (3, 0, 5); (4, 0, 7); (5, 0, 9);
    (6, 0, 11);
    (0, 1, 1); (1, 1, 3); (3, 1, 6); (4, 1, 8); (5, 1, 10);
    (1, -1, 1); (2, -1, 3); (4, -1, 6); (5, -1, 8); (6, -1, 10) ]%Z.

(** *** The parser *)

(** The numbers of a list grow strictly along it. *)
Definition strictlyIncreasing (l : list nat) : Prop :=
  forall i j a b,
    i < j -> nth_error l i = Some a -> nth_error l j = Some b -> a < b.

(** Some line of the text starts, once trimmed, with [prefix]. *)
Definition hasLineWith (prefix text : string) : bool :=
  existsb (fun line => startsWith prefix (trim line))
    (split "010" (trim text)).

(** The four prefixes and the keys of [metadata] that they set. *)
Definition metadataKeys : list (string * string) :=
  [("T:", "title"); ("C:", "composer"); ("K:", "key"); ("M:", "timeSignature")].

(** The number that a string of decimal digits denotes. *)
Definition digitsValue (s : string) : Z := Z.of_N (decimalValue 0 s).

(** [parseInt] of a string of decimal digits. *)
Definition digitsNumber (s : string) : option Z :=
  match s with
  | EmptyString => None
  | _ => Some (digitsValue s)
  end.

(** *** Navigation *)

(** A call of one of the public methods that move the cursor or the
    bookmark. *)
Inductive Op : Type :=
| OpPreviousNote
| OpNextNote
| OpPreviousMeasure
| OpNextMeasure
| OpReset
| OpSetBookmark
| OpGoToBookmark
| OpCheckNote (detected : string).

Definition run (op : Op) (s : State) : State :=
  match op with
  | OpPreviousNote => previousNote s
  | OpNextNote => nextNote s
  | OpPreviousMeasure => previousMeasure s
  | OpNextMeasure => nextMeasure s
  | OpReset => reset s
  | OpSetBookmark => setBookmark s
  | OpGoToBookmark => goToBookmark s
  | OpCheckNote detected => snd (checkNote detected s)
  end.

Definition runs (ops : list Op) (s : State) : State :=
  fold_left (fun s' op => run op s') ops s.

Definition isSetBookmark (op : Op) : bool :=
  match op with OpSetBookmark => true | _ => false end.

(** A sheet is loaded, and the cursor and the bookmark are indices of
    its notes. *)
Definition inSheet (s : State) : Prop :=
  exists sh,
    sheet s = Some sh /\
    (0 <= currentNoteIndex s < Z.of_nat (List.length (allNotes sh)))%Z /\
    (0 <= bookmark s < Z.of_nat (List.length (allNotes sh)))%Z.

(** [checkNote] on each of the detected notes in turn: the answers, and
    the state in the end. *)
Fixpoint play (detected : list string) (s : State) : list bool * State :=
  match detected with
  | [] => ([], s)
  | d :: rest =>
      let '(b, s1) := checkNote d s in
      let '(bs, s2) := play rest s1 in
      (b :: bs, s2)
  end.

(** *** The session *)

(** What happens to a session: a frame of the detector, a stop, a
    choice of target. *)
Inductive Event : Type :=
| Frame (frequency clarity : R)
| Stop
| Target (note : string).

Definition handle (e : Event) (s : Session.State) : Session.State :=
  match e with
  | Frame frequency clarity => Session.updatePitch frequency clarity s
  | Stop => Session.stopListening s
  | Target note => Session.setTargetNote note s
  end.

Definition handleAll (es : list Event) (s : Session.State) : Session.State :=
  fold_left (fun s' e => handle e s') es s.

(** The targets that an event chooses are keys of [noteFrequencies]. *)
Definition knownTarget (e : Event) : Prop :=
  match e with
  | Target note => ownProperty Companion.noteFrequencies note <> None
  | _ => True
  end.

(** The target is a key of the table; the session is in tune only on a
    frequency above 0 whose name is the target; and the note on display
    is the name of the frequency that is held. *)
Definition consistent (s : Session.State) : Prop :=
  let t := Session.tuner s in
  ownProperty Companion.noteFrequencies (Companion.targetNote t) <> None /\
  (Companion.inTune t = true ->
   (0 < Companion.currentFrequency t)%R
   /\ Companion.currentNote t = Companion.targetNote t) /\
  ((0 < Companion.currentFrequency t)%R ->
   Companion.currentNote t
   = Companion.frequencyToNote (Companion.currentFrequency t)).

End MoreNotions.

(* ================================================================== *)
(** ** The numbers of the language: IEEE 754 binary64                  *)
(* ================================================================== *)

Module Double.
Import PrimFloat FloatOps SpecFloat.
#[local] Set Warnings "-inexact-float".

(** A finite double other than zero is [(-1)^s * m * 2^e]. *)
Definition signed (s : bool) (m : positive) : Z :=
  if s then Z.neg m else Z.pos m.

(** The double of an integer, exact up to [2^53] in absolute value; it
    is applied to no integer beyond. *)
Definition ofZ (z : Z) : float :=
  if (z <? 0)%Z then (- of_uint63 (Uint63Axioms.of_Z (- z)))%float
  else of_uint63 (Uint63Axioms.of_Z z).


(** Truthiness of a number: [NaN], [0] and [-0] are falsy. *)
Definition truthy (x : float) : bool :=
  negb (is_nan x || (x =? 0)%float).

(** [Math.floor(x)].  A double with [0 <= e] is a whole number; below
    [2^53] the whole part is computed exactly. *)
Definition floor (x : float) : float :=
  match Prim2SF x with
  | S754_finite s m e =>
      if (0 <=? e)%Z then x else ofZ (Z.shiftr (signed s m) (- e))
  | _ => x
  end.

(** [Math.round(x)]: the whole number nearest to [x], a tie going
    upwards, that is [floor(x + 1/2)] computed exactly; the result is
    [-0] when [x] lies in [-0.5, -0]. *)
Definition round (x : float) : float :=
  match Prim2SF x with
  | S754_finite s m e =>
      if (0 <=? e)%Z then x
      else
        let n := Z.shiftr (2 * signed s m + 2 ^ (- e)) (1 - e) in
        if (n =? 0)%Z then (if s then (-0)%float else 0%float) else ofZ n
  | _ => x
  end.

(** [n % d]: the remainder of the division truncated towards zero, with
    the sign of [n]; it is exact. *)
Definition remainder (n d : float) : float :=
  match Prim2SF n, Prim2SF d with
  | S754_nan, _ | _, S754_nan => nan
  | S754_infinity _, _ => nan
  | _, S754_infinity _ => n
  | _, S754_zero _ => nan
  | S754_zero _, _ => n
  | S754_finite sn mn en, S754_finite _ md ed =>
      let e := Z.min en ed in
      let r := Z.rem (Z.pos mn * 2 ^ (en - e)) (Z.pos md * 2 ^ (ed - e)) in
      let v := Z.ldexp (ofZ r) e in
      if sn then (- v)%float else v
  end.

(** *** [Number.prototype.toString]

    The digits are those of the shortest decimal [d * 10^p] that rounds
    to the double, the nearest to it if there are several. *)

(** [s * 10^p] compared with [l * 2^q]. *)
Definition scaled (s p l q : Z) : comparison :=
  (s * 10 ^ Z.max p 0 * 2 ^ Z.max (- q) 0
   ?= l * 10 ^ Z.max (- p) 0 * 2 ^ Z.max q 0)%Z.

(** Does [s * 10^p] round to the double [m * 2^e]?  It does between the
    two midpoints with the neighbours, and at a midpoint when [m] is
    even. *)
Definition rounds (m : positive) (e : Z) (s p : Z) : bool :=
  let low := if (Z.pos m =? 2 ^ 52)%Z && (-1074 <? e)%Z
             then (4 * Z.pos m - 1)%Z else (4 * Z.pos m - 2)%Z in
  let high := (4 * Z.pos m + 2)%Z in
  match scaled s p low (e - 2), scaled s p high (e - 2) with
  | Gt, Lt => true
  | Eq, Lt | Gt, Eq => Z.even (Z.pos m)
  | _, _ => false
  end.

(** [floor(m * 2^e / 10^p)] *)
Definition quotient10 (m : positive) (e p : Z) : Z :=
  (Z.pos m * 2 ^ Z.max e 0 * 10 ^ Z.max (- p) 0
   / (2 ^ Z.max (- e) 0 * 10 ^ Z.max p 0))%Z.

(** The [n] with [10^(n-1) <= m * 2^e < 10^n], searched from an
    estimate. *)
Fixpoint magnitudeFrom (fuel : nat) (m : positive) (e n : Z) : Z :=
  match fuel with
  | O => n
  | S fuel' =>
      match scaled 1 (n - 1) (Z.pos m) e with
      | Gt => magnitudeFrom fuel' m e (n - 1)
      | _ =>
          match scaled 1 n (Z.pos m) e with
          | Gt => n
          | _ => magnitudeFrom fuel' m e (n + 1)
          end
      end
  end.

Definition magnitude (m : positive) (e : Z) : Z :=
  magnitudeFrom 8 m e ((Z.log2 (Z.pos m) + e) * 30103 / 100000 + 1).

(** The shortest decimal, tried with [k] digits and then with more;
    seventeen digits always suffice. *)
Fixpoint shortestFrom (fuel : nat) (m : positive) (e n k : Z) : Z * Z :=
  let p := (n - k)%Z in
  let below := quotient10 m e p in
  let above := (below + 1)%Z in
  match fuel with
  | O => (below, p)
  | S fuel' =>
      match rounds m e below p, rounds m e above p with
      | true, true =>
          match scaled (2 * below + 1) p (2 * Z.pos m) e with
          | Gt => (below, p)
          | Lt => (above, p)
          | Eq => (if Z.even below then below else above, p)
          end
      | true, false => (below, p)
      | false, true => (above, p)
      | false, false => shortestFrom fuel' m e n (k + 1)
      end
  end.

Fixpoint stripZeros (digits : string) : string :=
  match digits with
  | EmptyString => EmptyString
  | String c rest =>
      match stripZeros rest with
      | EmptyString =>
          if Ascii.eqb c "0" then EmptyString else String c EmptyString
      | t => String c t
      end
  end.

Fixpoint zeros (n : nat) : string :=
  match n with O => EmptyString | S n' => String "0" (zeros n') end.

(** The digits [digits], the decimal point standing after the first
    [n] of them: without exponent when [n] lies between -5 and 21. *)
Definition format (digits : string) (n : Z) : string :=
  let k := Z.of_nat (String.length digits) in
  (if ((-5 <=? n) && (n <=? 21))%Z then
     if (k <=? n)%Z then digits ++ zeros (Z.to_nat (n - k))
     else if (0 <? n)%Z then
       JS.substringTo (Z.to_nat n) digits ++ "."
       ++ JS.substringFrom (Z.to_nat n) digits
     else "0." ++ zeros (Z.to_nat (- n)) ++ digits
   else
     let exponent :=
       (if (n - 1 <? 0)%Z then "-" else "+") ++ JS.toString (Z.abs (n - 1)) in
     if (k =? 1)%Z then digits ++ "e" ++ exponent
     else JS.substringTo 1 digits ++ "." ++ JS.substringFrom 1 digits
          ++ "e" ++ exponent)%string.

Definition toString (x : float) : string :=
  match Prim2SF x with
  | S754_nan => "NaN"
  | S754_zero _ => "0"
  | S754_infinity s => if s then "-Infinity" else "Infinity"
  | S754_finite s m e =>
      let '(d, p) := shortestFrom 17 m e (magnitude m e) 1 in
      let all := JS.toString d in
      ((if s then "-" else "")
       ++ format (stripZeros all) (p + Z.of_nat (String.length all)))%string
  end.

(** [Math.log2(x)].  The language fixes the result at [NaN], at
    [+Infinity], at 1, at the two zeros and below zero; elsewhere it is
    an approximation that the implementation chooses. *)
Definition log2 (approximation : float -> float) (x : float) : float :=
  if is_nan x then x
  else if (x =? infinity)%float then x
  else if (x =? 1)%float then 0%float
  else if (x =? 0)%float then neg_infinity
  else if (x <? 0)%float then nan
  else approximation x.

(** [a[i]] for a number [i]: the element at [k] when [i] is the whole
    number [k] (or [-0] for the first), [undefined] otherwise. *)
Fixpoint atFrom {A : Type} (a : list A) (k : Z) (i : float) : option A :=
  match a with
  | [] => None
  | v :: rest => if (i =? ofZ k)%float then Some v else atFrom rest (k + 1) i
  end.

Definition at_ {A : Type} (a : list A) (i : float) : option A := atFrom a 0 i.

End Double.

(* ================================================================== *)
(** ** [src/violin-companion.ts]: the note namer and the tuning evaluator,
       on doubles                                                       *)
(* ================================================================== *)

(** The two functions as the code computes them.  [approximation] is
    what [Math.log2] returns where the language leaves the result to the
    implementation. *)
Module Companion64.
Import JS Double.
Import PrimFloat.
#[local] Set Warnings "-inexact-float".
Local Open Scope float_scope.

Definition noteFrequencies : list (string * float) :=
  [ ("G3", 196.00); ("G#3", 207.65); ("A3", 220.00); ("A#3", 233.08);
    ("B3", 246.94); ("C4", 261.63); ("C#4", 277.18); ("D4", 293.66);
    ("D#4", 311.13); ("E4", 329.63); ("F4", 349.23); ("F#4", 369.99);
    ("G4", 392.00); ("G#4", 415.30); ("A4", 440.00); ("A#4", 466.16);
    ("B4", 493.88); ("C5", 523.25); ("C#5", 554.37); ("D5", 587.33);
    ("D#5", 622.25); ("E5", 659.25); ("F5", 698.46); ("F#5", 739.99);
    ("G5", 783.99); ("G#5", 830.61); ("A5", 880.00) ].

Record State : Type := mkState
  { currentNote : string;
    currentFrequency : float;
    targetNote : string;
    inTune : bool }.

Definition withInTune (s : State) (b : bool) : State :=
  mkState (currentNote s) (currentFrequency s) (targetNote s) b.

Definition notes : list string := Companion.notes.

Section Engine.

Variable approximation : float -> float.

Definition frequencyToNote (frequency : float) : string :=
  let A4 := 440 in
  let semitone := 69 + 12 * log2 approximation (frequency / A4) in
  let noteIndex := remainder (remainder (round semitone) 12 + 12) 12 in
  let octave := floor (round semitone / 12) - 1 in
  match at_ notes noteIndex with
  | Some note =>
      if (0 <=? noteIndex) && (noteIndex <? ofZ (Z.of_nat (List.length notes)))
         && JS.truthy note
      then (note ++ toString octave)%string
      else "--"%string
  | None => "--"%string
  end.

Definition checkTuning (frequency : float) (s : State) : State :=
  match get noteFrequencies (targetNote s) with
  | Own targetFreq =>
      if truthy targetFreq then
        let cents := 1200 * log2 approximation (frequency / targetFreq) in
        withInTune s (abs cents <? 10)
      else s
  | Inherited _ => withInTune s false
  | Undefined => s
  end.

End Engine.

End Companion64.

(* ================================================================== *)
(** ** Notions that the statements on doubles use                       *)
(* ================================================================== *)

Module DoubleNotions.
Import PrimFloat Double.
#[local] Set Warnings "-inexact-float".
Local Open Scope float_scope.





(** The name of the semitone [n], computed on integers. *)
Definition nameOfInteger (n : Z) : string :=
  (nth (Z.to_nat (n mod 12)) Companion64.notes EmptyString
   ++ JS.toString (n / 12 - 1))%string.



End DoubleNotions.

(* ================================================================== *)
(** ** The notation parser                                              *)
(* ================================================================== *)

Section Parser.
Import JS Sheet Notions.

Lemma parseNote_fields token m i note :
  parseNote token m i = Some note -> measure note = m /\ index note = i.
Proof.
  unfold parseNote.
  destruct (durationMatch token) as [d|];
    match goal with
    | |- context [get noteMap ?k] => destruct (get noteMap k) as [p|member|]
    end;
    try destruct (truthy p); intros H; inversion H; subst; auto.
Qed.

(** Whether a token is read, and with which pitch and duration, depends
    neither on the measure nor on the index. *)
Lemma parseNote_relocate token m i :
  parseNote token m i =
  option_map (fun n => mkNote (pitch n) (duration n) m i) (parseNote token 0 0).
Proof.
  unfold parseNote.
  destruct (durationMatch token) as [d|];
    match goal with
    | |- context [get noteMap ?k] => destruct (get noteMap k) as [p|member|]
    end;
    try destruct (truthy p); reflexivity.
Qed.

Lemma parseNote_recognize token m i :
  option_map pitch (parseNote token m i) = recognize token.
Proof.
  unfold recognize. rewrite (parseNote_relocate token m i).
  destruct (parseNote token 0 0); reflexivity.
Qed.

Lemma recognize_empty : recognize EmptyString = None.
Proof. reflexivity. Qed.

Lemma tokenNotes_pitch tokens m i :
  map pitch (tokenNotes tokens m i) = recognized tokens.
Proof.
  revert i. induction tokens as [|t rest IH]; intros i; simpl; auto.
  destruct t as [|c t']; simpl truthy; cbv iota.
  - rewrite recognize_empty. apply IH.
  - rewrite <- (parseNote_recognize (String c t') m i).
    destruct (parseNote (String c t') m i); simpl; now rewrite IH.
Qed.

Lemma tokenNotes_measure tokens m i :
  Forall (fun n => measure n = m) (tokenNotes tokens m i).
Proof.
  revert i. induction tokens as [|t rest IH]; intros i; simpl; auto.
  destruct (truthy t); auto.
  destruct (parseNote t m i) eqn:E; auto.
  constructor; auto. now apply parseNote_fields in E.
Qed.


Lemma parseTokens_tokenNotes tokens m measureNotes allNotes i :
  parseTokens tokens m measureNotes allNotes i =
  (measureNotes ++ tokenNotes tokens m i,
   allNotes ++ tokenNotes tokens m i,
   i + List.length (tokenNotes tokens m i)).
Proof.
  revert measureNotes allNotes i.
  induction tokens as [|t rest IH]; intros mn an i; simpl.
  - now rewrite !app_nil_r, Nat.add_0_r.
  - destruct (truthy t); simpl; auto.
    destruct (parseNote t m i); auto.
    rewrite IH, <- !app_assoc. simpl. f_equal. lia.
Qed.

Lemma parseMeasures_measuresFrom segments k ts measures allNotes i :
  parseMeasures segments k ts measures allNotes i =
  (measures ++ measuresFrom segments k ts i,
   allNotes ++ List.concat (map notes (measuresFrom segments k ts i))).
Proof.
  revert k measures allNotes i.
  induction segments as [|seg rest IH]; intros k ms an i; simpl.
  - now rewrite !app_nil_r.
  - rewrite parseTokens_tokenNotes. simpl.
    rewrite IH.
    destruct (tokenNotes (noteTokensOf seg) k i) as [|n ns] eqn:E; simpl.
    + now rewrite app_nil_r.
    + now rewrite <- !app_assoc.
Qed.

Lemma recognized_app ts1 ts2 :
  recognized (ts1 ++ ts2) = recognized ts1 ++ recognized ts2.
Proof.
  induction ts1 as [|t rest IH]; simpl; auto.
  destruct (recognize t); simpl; now rewrite IH.
Qed.

(** All the notes of the measures that the segments add. *)
Lemma measuresFrom_notes seg rest k ts i :
  List.concat (map notes (measuresFrom (seg :: rest) k ts i)) =
  tokenNotes (noteTokensOf seg) k i ++
  List.concat (map notes (measuresFrom rest (S k) ts
                 (i + List.length (tokenNotes (noteTokensOf seg) k i)))).
Proof.
  simpl. destruct (tokenNotes (noteTokensOf seg) k i); reflexivity.
Qed.


Lemma measuresFrom_pitch segments k ts i :
  map pitch (List.concat (map notes (measuresFrom segments k ts i))) =
  recognized (flat_map noteTokensOf segments).
Proof.
  revert k i. induction segments as [|seg rest IH]; intros k i.
  - reflexivity.
  - rewrite measuresFrom_notes, map_app, tokenNotes_pitch, IH.
    simpl. now rewrite recognized_app.
Qed.

Lemma measuresFrom_number segments k ts i :
  map number (measuresFrom segments k ts i) = soundingPositions segments k.
Proof.
  revert k i. induction segments as [|seg rest IH]; intros k i; simpl; auto.
  rewrite map_app, IH, <- (tokenNotes_pitch (noteTokensOf seg) k i).
  destruct (tokenNotes (noteTokensOf seg) k i); reflexivity.
Qed.

(** Each measure comes from the segment at the position that is its
    number, holds the notes read there, and stamps them with it. *)
Lemma measuresFrom_segment segments k ts i m :
  In m (measuresFrom segments k ts i) ->
  k <= number m /\
  notes m <> [] /\
  Forall (fun n => measure n = number m) (notes m) /\
  exists seg,
    nth_error segments (number m - k) = Some seg /\
    map pitch (notes m) = recognized (noteTokensOf seg).
Proof.
  revert k i. induction segments as [|seg rest IH]; intros k i; simpl.
  - intros [].
  - intros H. apply in_app_or in H. destruct H as [H|H].
    + destruct (tokenNotes (noteTokensOf seg) k i) as [|n ns] eqn:E;
        simpl in H; [destruct H|].
      destruct H as [H|[]]. subst m. unfold number, notes.
      split; [lia|]. split; [discriminate|]. split.
      * rewrite <- E. apply tokenNotes_measure.
      * exists seg. rewrite Nat.sub_diag. split; auto.
        rewrite <- E. apply tokenNotes_pitch.
    + apply IH in H. destruct H as (Hk & Hne & Hall & seg' & Hnth & Hp).
      repeat split; auto; try lia.
      exists seg'. split; auto.
      replace (number m - k) with (S (number m - S k)) by lia. exact Hnth.
Qed.

Lemma soundingPositions_silent segments k j seg :
  nth_error segments j = Some seg ->
  recognized (noteTokensOf seg) = [] ->
  ~ In (k + j) (soundingPositions segments k).
Proof.
  revert k j. induction segments as [|s rest IH]; intros k j; simpl.
  - destruct j; discriminate.
  - assert (Hlow : forall l a x, In x (soundingPositions l a) -> a <= x).
    { clear. induction l as [|s l IHl]; simpl; intros a x; [intros []|].
      destruct (recognized (noteTokensOf s)); simpl; intros H.
      - apply IHl in H. lia.
      - destruct H as [H|H]; [lia|]. apply IHl in H. lia. }
    destruct j as [|j]; simpl; intros Hs Hr.
    + inversion Hs; subst. rewrite Hr. intros H. apply Hlow in H. lia.
    + specialize (IH (S k) j Hs Hr).
      replace (k + S j) with (S k + j) by lia.
      destruct (recognized (noteTokensOf s)); simpl; auto.
      intros [H|H]; [lia|]. auto.
Qed.

Lemma parseABCNotation_measures text :
  measures (parseABCNotation text) =
  measuresFrom (segmentsOf text) 0 (timeSignature (parseABCNotation text)) 0.
Proof.
  unfold parseABCNotation, segmentsOf.
  destruct (scanLines text) as [metadata noteString]. simpl snd.
  rewrite parseMeasures_measuresFrom. reflexivity.
Qed.

Lemma parseABCNotation_allNotes text :
  allNotes (parseABCNotation text) =
  List.concat (map notes (measures (parseABCNotation text))).
Proof.
  rewrite parseABCNotation_measures.
  unfold parseABCNotation, segmentsOf.
  destruct (scanLines text) as [metadata noteString]. simpl snd.
  rewrite parseMeasures_measuresFrom. reflexivity.
Qed.



(** A string is blank exactly when nothing is left of it once trimmed. *)
Lemma blank_trimStart (s : string) : blank (trimStart s) = blank s.
Proof.
  induction s as [|c s IH]; [reflexivity|]. simpl.
  destruct (isWhiteSpace c) eqn:E; [exact IH|]. simpl. now rewrite E.
Qed.

Lemma trimEnd_truthy (s : string) : truthy (trimEnd s) = negb (blank s).
Proof.
  induction s as [|c s IH]; [reflexivity|]. simpl.
  destruct (trimEnd s) as [|d t].
  - simpl in IH. destruct (blank s); [|discriminate IH].
    rewrite andb_true_r. now destruct (isWhiteSpace c).
  - simpl in IH. destruct (blank s); [discriminate IH|].
    now rewrite andb_false_r.
Qed.

Lemma trim_truthy (s : string) : truthy (trim s) = negb (blank s).
Proof. unfold trim. now rewrite trimEnd_truthy, blank_trimStart. Qed.

Lemma segmentsOf_not_blank (text : string) :
  segmentsOf text
  = filter (fun piece => negb (blank piece)) (split "|" (snd (scanLines text))).
Proof.
  unfold segmentsOf, measureStringsOf. apply filter_ext.
  intros piece. apply trim_truthy.
Qed.

(** C10.  For every text, the numbers of the measures of the parsed
    sheet are the positions, among the segments that are not blank, of
    those in which a token is recognized: a segment in which none is
    recognized gives no measure but still counts as a position.  Each
    measure holds the notes read in the segment at the position that is
    its number, and each of its notes carries that number in [measure].
    The segments are the pieces between the bars that hold a character
    other than white space, in order: none of them is blank, and a blank
    piece is no position.  The text ["C | Q | D"] gives two measures,
    numbered 0 and 2, and the note D4 has [measure] 2 and [index] 1; the
    text ["C | | D"], whose middle piece is blank, gives two measures
    numbered 0 and 1, and the note D4 has [measure] 1. *)
Theorem parseABCNotation_measure_positions :
  (forall text : string,
     let sh := parseABCNotation text in
     let segments := segmentsOf text in
     map number (measures sh) = soundingPositions segments 0 /\
     (forall k seg,
        nth_error segments k = Some seg ->
        recognized (noteTokensOf seg) = [] ->
        forall m, In m (measures sh) -> number m <> k) /\
     (forall m,
        In m (measures sh) ->
        Forall (fun n => measure n = number m) (notes m) /\
        exists seg,
          nth_error segments (number m) = Some seg /\
          map pitch (notes m) = recognized (noteTokensOf seg)) /\
     segments
     = filter (fun piece => negb (blank piece))
         (split "|" (snd (scanLines text))) /\
     Forall (fun seg => blank seg = false) segments) /\
  (let sh := parseABCNotation "C | Q | D" in
   segmentsOf "C | Q | D" = [" C "; " Q "; " D"] /\
   recognized (noteTokensOf " Q ") = [] /\
   map number (measures sh) = [0; 2] /\
   map (fun n => (pitch n, measure n, index n)) (allNotes sh)
     = [(Name "C4", 0, 0); (Name "D4", 2, 1)]) /\
  (let sh := parseABCNotation "C | | D" in
   split "|" (snd (scanLines "C | | D")) = [" C "; " "; " D"] /\
   segmentsOf "C | | D" = [" C "; " D"] /\
   map number (measures sh) = [0; 1] /\
   map (fun n => (pitch n, measure n, index n)) (allNotes sh)
     = [(Name "C4", 0, 0); (Name "D4", 1, 1)]).
Proof.
  split; [|split].
  - intros text sh segments. subst sh segments.
    rewrite parseABCNotation_measures.
    set (ts := timeSignature (parseABCNotation text)).
    split; [apply measuresFrom_number|]. split; [|split; [|split]].
    + intros k seg Hseg Hnone m Hm Hk.
      apply (soundingPositions_silent _ 0 _ _ Hseg Hnone).
      rewrite <- (measuresFrom_number _ 0 ts 0). simpl.
      rewrite <- Hk. now apply in_map.
    + intros m Hm. apply measuresFrom_segment in Hm.
      destruct Hm as (_ & _ & Hall & seg & Hnth & Hp).
      rewrite Nat.sub_0_r in Hnth. split; eauto.
    + apply segmentsOf_not_blank.
    + rewrite segmentsOf_not_blank. apply Forall_forall.
      intros seg Hseg. apply filter_In in Hseg.
      now apply negb_true_iff.
  - vm_compute. repeat split.
  - vm_compute. repeat split.
Qed.

Lemma parseABCNotation_measure_positions_witness :
  nth_error (segmentsOf "C | Q | D") 1 = Some " Q " /\
  forall m, In m (measures (parseABCNotation "C | Q | D")) -> number m <> 1.
Proof.
  split; [reflexivity|].
  exact (proj1 (proj2 (proj1 parseABCNotation_measure_positions "C | Q | D"))
           1 " Q " eq_refl eq_refl).
Defined.

(** *** Flats *)

Lemma durationMatch_whole d :
  allDuration d = true -> d <> EmptyString -> durationMatch d = Some d.
Proof.
  induction d as [|c d IH]; [congruence|].
  simpl allDuration. intros H _. apply andb_prop in H. destruct H as [Hc Hd].
  destruct d as [|c' d'].
  - simpl. now rewrite Hc.
  - change (durationMatch (String c (String c' d')))
      with (match durationMatch (String c' d') with
            | Some d0 =>
                if String.eqb d0 (String c' d') && isDurationChar c
                then Some (String c d0) else Some d0
            | None => None
            end).
    rewrite IH by (auto; discriminate).
    now rewrite String.eqb_refl, Hc.
Qed.

(** A token is split after its last character that is not a duration
    character. *)
Lemma durationMatch_after c d :
  isDurationChar c = false -> allDuration d = true ->
  durationMatch (String c d) =
  match d with EmptyString => None | _ => Some d end.
Proof.
  intros Hc Hd. destruct d as [|c' d'].
  - simpl. now rewrite Hc.
  - change (durationMatch (String c (String c' d')))
      with (match durationMatch (String c' d') with
            | Some d0 =>
                if String.eqb d0 (String c' d') && isDurationChar c
                then Some (String c d0) else Some d0
            | None => None
            end).
    rewrite durationMatch_whole by (auto; discriminate).
    now rewrite Hc, andb_false_r.
Qed.

Lemma durationMatch_before c t :
  isDurationChar c = false -> t <> EmptyString ->
  durationMatch (String c t) = durationMatch t.
Proof.
  intros Hc Ht. destruct t as [|c' t']; [congruence|].
  change (durationMatch (String c (String c' t')))
    with (match durationMatch (String c' t') with
          | Some d0 =>
              if String.eqb d0 (String c' t') && isDurationChar c
              then Some (String c d0) else Some d0
          | None => None
          end).
  rewrite Hc. destruct (durationMatch (String c' t')); auto.
  now rewrite andb_false_r.
Qed.

(** The token made of [_], a letter and a suffix of duration
    characters is looked up in [noteMap] under [_] and the letter. *)
Lemma parseNote_flat_lookup (letter : ascii) (suffix : string)
    (measureNum noteIndex : nat) :
  isDurationChar letter = false ->
  allDuration suffix = true ->
  parseNote (String "_" (String letter suffix)) measureNum noteIndex =
  match get noteMap (String "_" (String letter EmptyString)) with
  | Own p =>
      if truthy p
      then Some (mkNote (Name p) (durationOf suffix) measureNum noteIndex)
      else None
  | Inherited k =>
      Some (mkNote (PrototypeMember k) (durationOf suffix)
              measureNum noteIndex)
  | Undefined => None
  end.
Proof.
  intros Hletter Hs. unfold parseNote.
  rewrite durationMatch_before by (auto; discriminate).
  rewrite (durationMatch_after letter suffix Hletter Hs).
  destruct suffix as [|c d]; [reflexivity|].
  replace (String.length (String "_" (String letter (String c d)))
           - String.length (String c d)) with 2
    by (simpl String.length; lia).
  reflexivity.
Qed.

(** C9, as the code has it.  For each of the letters D, E, G, A and B,
    in upper or in lower case, and every suffix of duration characters,
    the token made of [_], the letter and the suffix is read as a note
    of the natural pitch of the letter: octave 4 in upper case, octave 5
    in lower case.  The letters C and F have no flat in [noteMap]: in
    either case, and with every suffix of duration characters, the
    token made of [_], the letter and the suffix gives no note. *)
Theorem parseNote_flat_is_natural (letter : ascii) (suffix : string)
    (measureNum noteIndex : nat) :
  allDuration suffix = true ->
  (In letter flatLetters ->
   parseNote (String "_" (String letter suffix)) measureNum noteIndex =
   Some (mkNote (Name (naturalPitch letter)) (durationOf suffix)
           measureNum noteIndex)) /\
  (In letter ["C"; "F"; "c"; "f"]%char ->
   parseNote (String "_" (String letter suffix)) measureNum noteIndex = None).
Proof.
  intros Hs. split; intros Hl; simpl in Hl;
    repeat (destruct Hl as [<-|Hl];
            [now rewrite parseNote_flat_lookup|]);
    destruct Hl.
Qed.

Lemma parseNote_flat_is_natural_witness :
  parseNote "_d" 0 0 = Some (mkNote (Name "D5") (Finite 1) 0 0) /\
  parseNote "_D3/4" 2 5 = Some (mkNote (Name "D4") (Finite (3 # 4)) 2 5) /\
  parseNote "_F" 0 0 = None /\
  parseNote "_c2" 1 3 = None /\
  parseNote "_f/2" 0 0 = None.
Proof.
  split; [|split; [|split; [|split]]].
  - apply (parseNote_flat_is_natural "d" "" 0 0); [reflexivity | simpl; tauto].
  - apply (parseNote_flat_is_natural "D" "3/4" 2 5);
      [reflexivity | simpl; tauto].
  - apply (parseNote_flat_is_natural "F" "" 0 0); [reflexivity | simpl; tauto].
  - apply (parseNote_flat_is_natural "c" "2" 1 3); [reflexivity | simpl; tauto].
  - apply (parseNote_flat_is_natural "f" "/2" 0 0);
      [reflexivity | simpl; tauto].
Defined.

(** The token [_C] starts with the flat marker and is not read as the
    natural C4: it is dropped. *)
Lemma parseNote_flat_C_dropped :
  parseNote "_C" 0 0 = None /\
  ~ (exists note, parseNote "_C" 0 0 = Some note
                  /\ pitch note = Name (naturalPitch "C")).
Proof.
  split; [reflexivity|]. intros [note [H _]]. vm_compute in H. discriminate.
Qed.

End Parser.

(* ================================================================== *)
(** ** The navigation engine                                            *)
(* ================================================================== *)

Section Navigation.
Import JS Sheet Display Notions.
Local Open Scope Z_scope.

Lemma at_Some {A : Type} (a : list A) (i : Z) (x : A) :
  at_ a i = Some x <-> 0 <= i /\ nth_error a (Z.to_nat i) = Some x.
Proof.
  unfold at_. destruct (Z.ltb_spec i 0); split; intros H';
    try discriminate; try tauto; try lia.
Qed.

Lemma at_in_range {A : Type} (a : list A) (i : Z) (x : A) :
  at_ a i = Some x -> 0 <= i < Z.of_nat (List.length a).
Proof.
  intros H. apply at_Some in H. destruct H as [H0 H].
  assert (Z.to_nat i < List.length a)%nat
    by (apply nth_error_Some; congruence).
  lia.
Qed.

(** *** Steps by one note *)

Lemma previousNote_range s n :
  0 <= currentNoteIndex s < n ->
  0 <= currentNoteIndex (previousNote s) < n.
Proof.
  unfold previousNote. intros H.
  destruct (Z.gtb_spec (currentNoteIndex s) 0); simpl; lia.
Qed.

Lemma nextNote_range s sh :
  sheet s = Some sh ->
  0 <= currentNoteIndex s < Z.of_nat (List.length (allNotes sh)) ->
  0 <= currentNoteIndex (nextNote s) < Z.of_nat (List.length (allNotes sh)).
Proof.
  unfold nextNote. intros -> H.
  destruct (Z.ltb_spec (currentNoteIndex s)
              (Z.of_nat (List.length (allNotes sh)) - 1)); simpl; lia.
Qed.

Lemma move_sheet m s : sheet (move m s) = sheet s.
Proof.
  destruct m; simpl; unfold previousNote, nextNote.
  - destruct (currentNoteIndex s >? 0); reflexivity.
  - destruct (sheet s) as [sh|] eqn:E; auto.
    destruct (currentNoteIndex s <? Z.of_nat (List.length (allNotes sh)) - 1);
      auto.
Qed.

(** C6.  With a sheet of [n] notes loaded and the cursor in
    [0 .. n-1], any finite sequence of calls of [previousNote()] and
    [nextNote()] leaves the sheet in place and the cursor in
    [0 .. n-1]; [nextNote()] at [n-1] and [previousNote()] at [0] change
    nothing.  Both are total functions of the state: neither raises. *)
Theorem note_steps_stay_in_range (sh : MusicSheet) (s : State)
    (ms : list Move) :
  sheet s = Some sh ->
  0 <= currentNoteIndex s < Z.of_nat (List.length (allNotes sh)) ->
  (sheet (moves ms s) = Some sh /\
   0 <= currentNoteIndex (moves ms s) < Z.of_nat (List.length (allNotes sh))) /\
  (currentNoteIndex s = Z.of_nat (List.length (allNotes sh)) - 1 ->
   nextNote s = s) /\
  (currentNoteIndex s = 0 -> previousNote s = s).
Proof.
  intros Hsh Hr. split; [|split].
  - revert s Hsh Hr. unfold moves.
    induction ms as [|m ms IH]; intros s Hsh Hr; simpl; [auto|].
    apply IH.
    + now rewrite move_sheet.
    + destruct m; simpl.
      * now apply previousNote_range.
      * now apply nextNote_range.
  - intros He. unfold nextNote. rewrite Hsh, He, Z.ltb_irrefl. reflexivity.
  - intros He. unfold previousNote. rewrite He. reflexivity.
Qed.

Lemma note_steps_stay_in_range_witness :
  let s := showSheet eightNotes "eight" (initial []) in
  let ms := [Next; Next; Next; Next; Next; Next; Next; Next; Next; Previous] in
  (sheet (moves ms s) = Some eightNotes /\
   0 <= currentNoteIndex (moves ms s)
     < Z.of_nat (List.length (allNotes eightNotes))) /\
  (currentNoteIndex s = Z.of_nat (List.length (allNotes eightNotes)) - 1 ->
   nextNote s = s) /\
  (currentNoteIndex s = 0 -> previousNote s = s).
Proof.
  intros s ms. apply (note_steps_stay_in_range eightNotes s ms).
  - reflexivity.
  - vm_compute. split; [discriminate | reflexivity].
Defined.

(** *** Matching a detected note *)

Lemma strictEquals_true d p : strictEquals d p = true <-> p = Name d.
Proof.
  destruct p as [n|k]; simpl.
  - rewrite String.eqb_eq. split; congruence.
  - split; discriminate.
Qed.

(** C4.  With a sheet loaded, [checkNote(d)] returns true exactly when
    the note under the cursor has the pitch [d]; it then leaves the
    state that [nextNote()] gives, in which the cursor is one further
    unless it was on the last note; otherwise it returns false and leaves
    the state as it was. *)
Theorem checkNote_advances_on_match (sh : MusicSheet) (s : State)
    (detected : string) :
  sheet s = Some sh ->
  (fst (checkNote detected s) = true <->
   exists note, at_ (allNotes sh) (currentNoteIndex s) = Some note
                /\ pitch note = Name detected) /\
  (fst (checkNote detected s) = true ->
   snd (checkNote detected s) = nextNote s /\
   currentNoteIndex (nextNote s) =
     if currentNoteIndex s <? Z.of_nat (List.length (allNotes sh)) - 1
     then currentNoteIndex s + 1 else currentNoteIndex s) /\
  (fst (checkNote detected s) = false -> snd (checkNote detected s) = s).
Proof.
  intros Hsh. unfold checkNote, getCurrentNote. rewrite Hsh.
  destruct (at_ (allNotes sh) (currentNoteIndex s)) as [note|] eqn:Hat.
  - destruct (strictEquals detected (pitch note)) eqn:He; simpl.
    + apply strictEquals_true in He. repeat split; try discriminate; eauto.
      unfold nextNote. rewrite Hsh.
      destruct (currentNoteIndex s <? Z.of_nat (List.length (allNotes sh)) - 1);
        reflexivity.
    + repeat split; try discriminate; auto.
      intros [note' [Hn Hp]]. inversion Hn; subst note'.
      apply strictEquals_true in Hp. congruence.
  - simpl. repeat split; try discriminate; auto.
    intros [note' [Hn _]]. discriminate.
Qed.

Lemma checkNote_advances_on_match_witness :
  let s := showSheet eightNotes "eight" (initial []) in
  fst (checkNote "C4" s) = true /\
  currentNoteIndex (snd (checkNote "C4" s)) = 1 /\
  checkNote "D4" s = (false, s).
Proof.
  intros s.
  destruct (checkNote_advances_on_match eightNotes s "C4" eq_refl)
    as (Hiff & Hadv & _).
  destruct (checkNote_advances_on_match eightNotes s "D4" eq_refl)
    as (_ & _ & Hstay).
  assert (Ht : fst (checkNote "C4" s) = true).
  { apply Hiff. eexists. split; reflexivity. }
  split; [exact Ht|]. split.
  - destruct (Hadv Ht) as [-> ->]. reflexivity.
  - rewrite (surjective_pairing (checkNote "D4" s)).
    rewrite (Hstay eq_refl). reflexivity.
Defined.

(** *** Loading a sheet *)

Lemma loadBookmark_reads s stored :
  getItem (localStorage s) bookmarkKey = Some stored ->
  truthy stored = true ->
  loadBookmark s = withBookmark s (parseIntOrZero stored).
Proof. unfold loadBookmark. now intros -> ->. Qed.

(** C7, as the code has it.  When [loadSheet] finds the sheet in its
    table, it installs the parsed sheet; a bookmark that is at or beyond
    the number of notes is reset to 0 and the 0 is stored at once; a
    bookmark below the number of notes is kept and nothing is stored;
    in both cases the cursor is then the bookmark. *)
Theorem loadSheet_resets_bookmark_beyond_end
    (sheets : list (string * string)) (sheetName abcNotation : string)
    (s : State) :
  ownProperty sheets sheetName = Some abcNotation ->
  truthy abcNotation = true ->
  let sh := parseABCNotation abcNotation in
  let n := Z.of_nat (List.length (allNotes sh)) in
  exists s',
    loadSheetFrom sheets sheetName s = Normal s' /\
    sheet s' = Some sh /\
    (n <= bookmark s ->
     bookmark s' = 0 /\ getItem (localStorage s') bookmarkKey = Some "0") /\
    (bookmark s < n ->
     bookmark s' = bookmark s /\ localStorage s' = localStorage s) /\
    currentNoteIndex s' = bookmark s'.
Proof.
  intros Hown Htruthy sh n.
  unfold loadSheetFrom, get. rewrite Hown, Htruthy.
  eexists. split; [reflexivity|]. fold sh.
  unfold showSheet. simpl bookmark. fold n.
  destruct (Z.geb_spec (bookmark s) n) as [Hge|Hlt]; simpl.
  - repeat split; auto; lia.
  - repeat split; auto; lia.
Qed.

Lemma loadSheet_resets_bookmark_beyond_end_witness :
  exists s',
    loadSheet "simple-scale"
      (loadBookmark (initial [(bookmarkKey, "41")])) = Normal s' /\
    bookmark s' = 0 /\
    getItem (localStorage s') bookmarkKey = Some "0" /\
    currentNoteIndex s' = 0.
Proof.
  destruct (loadSheet_resets_bookmark_beyond_end sampleSheets "simple-scale"
              _ (loadBookmark (initial [(bookmarkKey, "41")]))
              eq_refl eq_refl)
    as (s' & Hload & _ & Hreset & _ & Hcur).
  exists s'. split; [exact Hload|].
  destruct Hreset as [Hb Hstore]; [vm_compute; discriminate|].
  rewrite Hcur, Hb. auto.
Defined.

(** A stored bookmark below 0 is out of the range of the sheet, and it
    is neither reset nor stored again: the cursor becomes negative. *)
Lemma negative_bookmark_is_kept :
  exists s' sh,
    connectedCallback (initial [(bookmarkKey, "-3")]) = Normal s' /\
    sheet s' = Some sh /\
    List.length (allNotes sh) = 42%nat /\
    bookmark s' = -3 /\
    currentNoteIndex s' = -3 /\
    localStorage s' = [(bookmarkKey, "-3")].
Proof.
  eexists. eexists. split; [reflexivity|]. split; [reflexivity|].
  vm_compute. repeat split.
Qed.

(** *** Steps by one measure *)

Local Open Scope nat_scope.

Ltac conjs := repeat match goal with |- _ /\ _ => split end.

(** The notes of a parsed sheet are ordered by measure. *)
Lemma measuresFrom_ordered segments k ts i :
  let ns := List.concat (map notes (measuresFrom segments k ts i)) in
  Forall (fun n => k <= measure n) ns /\ measureOrdered ns.
Proof.
  revert k i. induction segments as [|seg rest IH]; intros k i.
  - simpl. split; [constructor|].
    intros a b x y _ H. destruct a; discriminate.
  - cbv zeta. rewrite measuresFrom_notes.
    set (new := tokenNotes (noteTokensOf seg) k i).
    destruct (IH (S k) (i + List.length new)) as [Hlow Hord].
    cbv zeta in Hlow, Hord.
    set (tl := List.concat
                 (map notes (measuresFrom rest (S k) ts (i + List.length new))))
      in *.
    assert (Hnew : Forall (fun n => measure n = k) new)
      by apply tokenNotes_measure.
    rewrite Forall_forall in Hnew, Hlow.
    split.
    + apply Forall_forall. intros x Hx. apply in_app_or in Hx.
      destruct Hx as [Hx|Hx]; [rewrite (Hnew x Hx); lia|].
      specialize (Hlow x Hx). lia.
    + intros a b x y Hab Ha Hb.
      destruct (Nat.lt_ge_cases b (List.length new)) as [Hb'|Hb'].
      * rewrite nth_error_app1 in Ha, Hb by lia.
        apply nth_error_In in Ha, Hb.
        rewrite (Hnew x Ha), (Hnew y Hb). lia.
      * rewrite nth_error_app2 in Hb by lia.
        destruct (Nat.lt_ge_cases a (List.length new)) as [Ha'|Ha'].
        -- rewrite nth_error_app1 in Ha by lia.
           apply nth_error_In in Ha, Hb.
           rewrite (Hnew x Ha). specialize (Hlow y Hb). lia.
        -- rewrite nth_error_app2 in Ha by lia.
           apply (Hord (a - List.length new) (b - List.length new));
             auto; lia.
Qed.

Lemma parseABCNotation_ordered text :
  measureOrdered (allNotes (parseABCNotation text)).
Proof.
  rewrite parseABCNotation_allNotes, parseABCNotation_measures.
  apply measuresFrom_ordered.
Qed.

(** The inner loop stops on the first note of the run of
    [targetMeasure] that ends at [i]. *)
Lemma startOfRun_run ns t i cur :
  i < List.length ns ->
  (exists x, nth_error ns i = Some x /\ measure x <> t
             /\ startOfRun ns t i cur = cur) \/
  (exists j0,
     startOfRun ns t i cur = Z.of_nat j0 /\ j0 <= i /\
     (forall j x, j0 <= j <= i -> nth_error ns j = Some x -> measure x = t) /\
     (j0 = 0 \/ exists x, nth_error ns (j0 - 1) = Some x /\ measure x <> t)).
Proof.
  revert cur. induction i as [|i IH]; intros cur Hi.
  - cbn [startOfRun]. destruct (nth_error ns 0) as [x|] eqn:E.
    + destruct (Nat.eqb_spec (measure x) t) as [Hm|Hm].
      * right. exists 0. conjs; auto.
        intros j y Hj Hy. assert (j = 0) by lia. subst j. congruence.
      * left. eauto.
    + apply nth_error_None in E. lia.
  - cbn [startOfRun]. destruct (nth_error ns (S i)) as [x|] eqn:E.
    + destruct (Nat.eqb_spec (measure x) t) as [Hm|Hm].
      * right.
        destruct (IH (Z.of_nat (S i)) ltac:(lia))
          as [(y & Hy & Hne & Hr)|(j0 & Hr & Hle & Hrun & Hstop)].
        -- exists (S i). conjs; auto.
           ++ intros j z Hj Hz. assert (j = S i) by lia. subst j. congruence.
           ++ right. exists y. simpl. rewrite Nat.sub_0_r. auto.
        -- exists j0. conjs; auto.
           intros j z Hj Hz.
           destruct (Nat.eq_dec j (S i)) as [->|Hne]; [congruence|].
           apply (Hrun j z); auto. lia.
      * left. eauto.
    + apply nth_error_None in E. lia.
Qed.

(** The outer loop stops on the nearest note before [k] of a lower
    measure, if there is one. *)
Lemma findPrevious_nearest ns cm k cur :
  match findPrevious ns cm k cur with
  | None => forall j x, j < k -> nth_error ns j = Some x -> cm <= measure x
  | Some r =>
      exists i x,
        i < k /\ nth_error ns i = Some x /\ measure x < cm /\
        r = startOfRun ns (measure x) i cur /\
        (forall j y, i < j < k -> nth_error ns j = Some y -> cm <= measure y)
  end.
Proof.
  induction k as [|k IH]; simpl.
  - intros j x Hj. lia.
  - destruct (nth_error ns k) as [x|] eqn:E.
    + destruct (Nat.ltb_spec (measure x) cm) as [Hm|Hm].
      * exists k, x. conjs; auto. intros j y Hj. lia.
      * destruct (findPrevious ns cm k cur) as [r|].
        -- destruct IH as (i & y & Hi & Hy & Hlt & Hr & Hbetween).
           exists i, y. conjs; auto.
           intros j z Hj Hz.
           destruct (Nat.eq_dec j k) as [->|Hne]; [congruence|].
           apply (Hbetween j z); auto. lia.
        -- intros j y Hj Hy.
           destruct (Nat.eq_dec j k) as [->|Hne]; [congruence|].
           apply (IH j y); auto. lia.
    + destruct (findPrevious ns cm k cur) as [r|].
      * destruct IH as (i & y & Hi & Hy & Hlt & Hr & Hbetween).
        exists i, y. conjs; auto.
        intros j z Hj Hz.
        destruct (Nat.eq_dec j k) as [->|Hne]; [congruence|].
        apply (Hbetween j z); auto. lia.
      * intros j y Hj Hy.
        destruct (Nat.eq_dec j k) as [->|Hne]; [congruence|].
        apply (IH j y); auto. lia.
Qed.

(** The loop of [nextMeasure] stops on the first of the notes that are
    left whose measure is higher, if there is one. *)
Lemma findNext_first rest cm i :
  match findNext rest cm i with
  | None => forall j x, nth_error rest j = Some x -> measure x <= cm
  | Some r =>
      exists j x,
        r = i + j /\ nth_error rest j = Some x /\ cm < measure x /\
        (forall j' y, j' < j -> nth_error rest j' = Some y -> measure y <= cm)
  end.
Proof.
  revert i. induction rest as [|n rest IH]; intros i; simpl.
  - intros j x H. destruct j; discriminate.
  - destruct (Nat.ltb_spec cm (measure n)) as [Hm|Hm].
    + exists 0, n. conjs; auto. intros j' y Hj. lia.
    + specialize (IH (S i)).
      destruct (findNext rest cm (S i)) as [r|].
      * destruct IH as (j & x & Hr & Hx & Hlt & Hbefore).
        exists (S j), x. conjs; auto; try lia.
        intros j' y Hj Hy. destruct j' as [|j'].
        -- simpl in Hy. inversion Hy; subst. exact Hm.
        -- apply (Hbefore j' y); auto. lia.
      * intros j x Hx. destruct j as [|j].
        -- simpl in Hx. inversion Hx; subst. exact Hm.
        -- apply (IH j x Hx).
Qed.

Lemma findPrevious_target ns c current cur :
  measureOrdered ns ->
  nth_error ns c = Some current ->
  match findPrevious ns (measure current) c cur with
  | None => forall x, In x ns -> measure current <= measure x
  | Some r =>
      exists m j,
        r = Z.of_nat j /\ highestBelow ns (measure current) m
        /\ firstWithMeasure ns m j
  end.
Proof.
  intros Hord Hc.
  pose proof (findPrevious_nearest ns (measure current) c cur) as H.
  destruct (findPrevious ns (measure current) c cur) as [r|].
  - destruct H as (i & x & Hi & Hx & Hlt & Hr & Hbetween).
    assert (Hlen : i < List.length ns) by (apply nth_error_Some; congruence).
    destruct (startOfRun_run ns (measure x) i cur Hlen)
      as [(y & Hy & Hne & _)|(j0 & Hj0 & Hle & Hrun & Hstop)];
      [congruence|].
    assert (Hj0len : j0 < List.length ns) by lia.
    destruct (nth_error ns j0) as [z|] eqn:Hz;
      [|apply nth_error_None in Hz; lia].
    assert (Hzm : measure z = measure x) by (apply (Hrun j0 z); auto; lia).
    exists (measure x), j0. split; [congruence|]. split.
    + split; [exact Hlt|]. split.
      * exists x. split; auto. eapply nth_error_In; eauto.
      * intros y Hy Hylt. apply In_nth_error in Hy. destruct Hy as [j Hj].
        destruct (Nat.le_gt_cases j i) as [Hji|Hji].
        -- apply (Hord j i y x); auto.
        -- destruct (Nat.lt_ge_cases j c) as [Hjc|Hjc].
           ++ specialize (Hbetween j y (conj Hji Hjc) Hj). lia.
           ++ specialize (Hord c j current y Hjc Hc Hj). lia.
    + split; [eauto|].
      intros j y Hy Hym.
      destruct (Nat.le_gt_cases j0 j) as [|Hlt']; [assumption|].
      destruct Hstop as [->|(w & Hw & Hwne)]; [lia|].
      assert (measure y <= measure w)
        by (apply (Hord j (j0 - 1) y w); auto; lia).
      assert (measure w <= measure z)
        by (apply (Hord (j0 - 1) j0 w z); auto; lia).
      lia.
  - intros x Hx. apply In_nth_error in Hx. destruct Hx as [j Hj].
    destruct (Nat.lt_ge_cases j c) as [Hjc|Hjc].
    + apply (H j x); auto.
    + apply (Hord c j current x); auto.
Qed.

Lemma findNext_target ns c current :
  measureOrdered ns ->
  nth_error ns c = Some current ->
  match findNext (skipn (S c) ns) (measure current) (S c) with
  | None => forall x, In x ns -> measure x <= measure current
  | Some j => firstAbove ns (measure current) j
  end.
Proof.
  intros Hord Hc.
  pose proof (findNext_first (skipn (S c) ns) (measure current) (S c)) as H.
  destruct (findNext (skipn (S c) ns) (measure current) (S c)) as [r|].
  - destruct H as (j & x & -> & Hx & Hlt & Hbefore).
    rewrite nth_error_skipn in Hx.
    split; [eauto|].
    intros i y Hy Hylt.
    destruct (Nat.le_gt_cases i c) as [Hic|Hic].
    + specialize (Hord i c y current Hic Hy Hc). lia.
    + destruct (Nat.le_gt_cases (S c + j) i) as [|Hij]; [assumption|].
      assert (Hle : measure y <= measure current).
      { apply (Hbefore (i - S c) y); [lia|].
        rewrite nth_error_skipn. now replace (S c + (i - S c)) with i by lia. }
      lia.
  - intros x Hx. apply In_nth_error in Hx. destruct Hx as [j Hj].
    destruct (Nat.le_gt_cases j c) as [Hjc|Hjc].
    + apply (Hord j c x current); auto.
    + apply (H (j - S c) x).
      rewrite nth_error_skipn. now replace (S c + (j - S c)) with j by lia.
Qed.

(** C5.  With a parsed sheet loaded and the cursor on one of its notes,
    whose measure is [cm]: [previousMeasure()] puts the cursor on the
    first note of the highest measure strictly below [cm], or on index
    0 when no note has a lower measure; [nextMeasure()] puts it on the
    first note of a measure strictly above [cm], or leaves the state as
    it is when no note has a higher measure.  On the sheet of eight
    notes in two measures, [nextMeasure()] from 0 gives 4 and
    [previousMeasure()] from 4 gives 0. *)
Theorem measure_steps_reach_first_note :
  (forall (text : string) (s : State) (current : Note),
     let sh := parseABCNotation text in
     let ns := allNotes sh in
     sheet s = Some sh ->
     at_ ns (currentNoteIndex s) = Some current ->
     let cm := measure current in
     (((forall x, In x ns -> cm <= measure x)
       /\ previousMeasure s = withCursor s 0%Z)
      \/ (exists m j,
            highestBelow ns cm m /\ firstWithMeasure ns m j
            /\ previousMeasure s = withCursor s (Z.of_nat j)))
     /\
     (((forall x, In x ns -> measure x <= cm) /\ nextMeasure s = s)
      \/ (exists j,
            firstAbove ns cm j
            /\ nextMeasure s = withCursor s (Z.of_nat j)))) /\
  (List.length (allNotes eightNotes) = 8 /\
   List.length (measures eightNotes) = 2 /\
   forall s : State,
     sheet s = Some eightNotes ->
     (currentNoteIndex s = 0%Z -> currentNoteIndex (nextMeasure s) = 4%Z) /\
     (currentNoteIndex s = 4%Z -> currentNoteIndex (previousMeasure s) = 0%Z)).
Proof.
  split.
  - intros text s current sh ns Hsh Hat cm.
    apply at_Some in Hat. destruct Hat as [H0 Hc].
    pose proof (parseABCNotation_ordered text) as Hord. fold sh ns in Hord.
    split.
    + pose proof (findPrevious_target ns _ current (currentNoteIndex s)
                    Hord Hc) as H.
      unfold previousMeasure. rewrite Hsh. fold ns.
      replace (at_ ns (currentNoteIndex s)) with (Some current)
        by (symmetry; apply at_Some; auto).
      fold cm in H |- *.
      destruct (findPrevious ns cm (Z.to_nat (currentNoteIndex s))
                  (currentNoteIndex s)) as [r|].
      * right. destruct H as (m & j & -> & Hhigh & Hfirst). eauto.
      * left. auto.
    + pose proof (findNext_target ns _ current Hord Hc) as H.
      unfold nextMeasure. rewrite Hsh. fold ns.
      replace (at_ ns (currentNoteIndex s)) with (Some current)
        by (symmetry; apply at_Some; auto).
      fold cm in H |- *. cbv zeta.
      destruct (findNext (skipn (S (Z.to_nat (currentNoteIndex s))) ns) cm
                  (S (Z.to_nat (currentNoteIndex s)))) as [r|].
      * right. eauto.
      * left. auto.
  - split; [reflexivity|]. split; [reflexivity|].
    intros s Hsh. split; intros Hcur.
    + unfold nextMeasure. rewrite Hsh, Hcur. reflexivity.
    + unfold previousMeasure. rewrite Hsh, Hcur. reflexivity.
Qed.

Lemma measure_steps_reach_first_note_witness :
  let s := withCursor (showSheet eightNotes "eight" (initial [])) 5%Z in
  exists current,
    at_ (allNotes eightNotes) 5%Z = Some current /\
    (((forall x, In x (allNotes eightNotes) -> measure current <= measure x)
      /\ previousMeasure s = withCursor s 0%Z)
     \/ (exists m j,
           highestBelow (allNotes eightNotes) (measure current) m
           /\ firstWithMeasure (allNotes eightNotes) m j
           /\ previousMeasure s = withCursor s (Z.of_nat j)))
    /\
    (((forall x, In x (allNotes eightNotes) -> measure x <= measure current)
      /\ nextMeasure s = s)
     \/ (exists j,
           firstAbove (allNotes eightNotes) (measure current) j
           /\ nextMeasure s = withCursor s (Z.of_nat j))).
Proof.
  intros s. eexists. split; [reflexivity|].
  exact (proj1 measure_steps_reach_first_note "C C G G | A A G G |" s _
           eq_refl eq_refl).
Defined.

End Navigation.

(* ================================================================== *)
(** ** The note namer and the tuning evaluator                          *)
(* ================================================================== *)

Section Tuning.
Import JS Companion Notions.
Local Open Scope R_scope.

Lemma ln_2_pos : 0 < ln 2.
Proof. pose proof ln_lt_2. lra. Qed.

Lemma round_near (x : R) (n : Z) :
  IZR n - / 2 <= x < IZR n + / 2 -> round x = n.
Proof.
  intros H. unfold round. symmetry. apply Int_part_spec. lra.
Qed.

(** [Math.floor(n / 12)] is the quotient of the division that rounds
    down. *)
Lemma floor_div_12 (n : Z) : floor (IZR n / 12) = (n / 12)%Z.
Proof.
  unfold floor. symmetry. apply Int_part_spec.
  pose proof (Z.div_mod n 12 ltac:(lia)) as Hn.
  pose proof (Z.mod_pos_bound n 12 ltac:(lia)) as [Hlo Hhi].
  apply IZR_le in Hlo. apply IZR_lt in Hhi.
  apply (f_equal IZR) in Hn. rewrite plus_IZR, mult_IZR in Hn.
  lra.
Qed.

(** The remainder of [%] takes the sign of the dividend; adding 12 and
    taking it again gives the remainder that is never negative. *)
Lemma rem_rem_12 (n : Z) :
  Z.rem (Z.rem n 12 + 12) 12 = (n mod 12)%Z.
Proof.
  pose proof (Z.rem_bound_abs n 12 ltac:(lia)) as Hb.
  pose proof (Z.quot_rem n 12 ltac:(lia)) as Hq.
  rewrite Z.rem_mod_nonneg by lia.
  pose proof (Z.div_mod n 12 ltac:(lia)) as Hd.
  pose proof (Z.mod_pos_bound n 12 ltac:(lia)) as Hm.
  symmetry.
  apply (Z.mod_unique_pos (Z.rem n 12 + 12) 12 (n / 12 - Z.quot n 12 + 1));
    lia.
Qed.

Lemma mod_mod_12 (n : Z) : (((n mod 12) + 12) mod 12 = n mod 12)%Z.
Proof.
  rewrite <- Z.add_mod_idemp_l by lia.
  rewrite Z.mod_mod by lia.
  replace (n mod 12 + 12)%Z with (n mod 12 + 1 * 12)%Z by lia.
  rewrite Z.mod_add by lia. apply Z.mod_mod. lia.
Qed.

Lemma notes_entry (k : Z) :
  (0 <= k < 12)%Z ->
  exists note,
    at_ notes k = Some note /\ truthy note = true
    /\ nth (Z.to_nat k) notes EmptyString = note.
Proof.
  intros Hk. unfold at_.
  destruct (Z.ltb_spec k 0); [lia|].
  assert (Hn : (Z.to_nat k < 12)%nat) by lia.
  destruct (Z.to_nat k) as [|i]; [eexists; repeat split|].
  do 11 (destruct i as [|i]; [eexists; repeat split|]).
  lia.
Qed.

Lemma log2_positive (x : R) : 0 < x -> log2 x = Some (ln x / ln 2).
Proof. intros H. unfold log2. destruct (Rlt_dec 0 x); [reflexivity|lra]. Qed.

Lemma frequencyToNote_semitone (f : R) :
  0 < f ->
  frequencyToNote f =
  (nth (Z.to_nat (semitoneOf f mod 12)) notes EmptyString
   ++ toString (semitoneOf f / 12 - 1))%string.
Proof.
  intros Hf. unfold frequencyToNote.
  rewrite log2_positive by (apply Rdiv_lt_0_compat; lra).
  fold (semitoneOf f). set (n := semitoneOf f).
  rewrite rem_rem_12, floor_div_12.
  destruct (notes_entry (n mod 12)%Z) as (note & Hat & Htruthy & Hnth).
  { apply Z.mod_pos_bound. lia. }
  rewrite Hat, Htruthy, Hnth.
  pose proof (Z.mod_pos_bound n 12 ltac:(lia)) as Hb.
  destruct (Z.geb_spec (n mod 12) 0); [|lia].
  destruct (Z.ltb_spec (n mod 12) (Z.of_nat (List.length notes)));
    [reflexivity|simpl in *; lia].
Qed.

Lemma semitoneName_div_mod (n : Z) :
  semitoneName n =
  (nth (Z.to_nat (n mod 12)) notes EmptyString ++ toString (n / 12 - 1))%string.
Proof. unfold semitoneName. now rewrite mod_mod_12, floor_div_12. Qed.

Lemma uint_sharpNameChars d :
  allSharpNameChars (NilEmpty.string_of_uint d) = true.
Proof. induction d; simpl; auto. Qed.

Lemma toString_sharpNameChars z : allSharpNameChars (toString z) = true.
Proof.
  unfold toString, NilZero.string_of_int, NilZero.string_of_uint.
  destruct (Z.to_int z) as [d|d]; destruct d;
    try reflexivity; simpl; apply uint_sharpNameChars.
Qed.

Lemma allSharpNameChars_app a b :
  allSharpNameChars (a ++ b) = allSharpNameChars a && allSharpNameChars b.
Proof.
  induction a as [|c a IH]; simpl; auto. now rewrite IH, andb_assoc.
Qed.

(** *** The tuning evaluator *)

Lemma noteFrequencies_positive (t : string) (ref : R) :
  ownProperty noteFrequencies t = Some ref -> 0 < ref.
Proof.
  unfold noteFrequencies. cbn [ownProperty].
  repeat match goal with
         | |- (if String.eqb ?k t then _ else _) = _ -> _ =>
             destruct (String.eqb k t);
             [intros H; inversion H; subst; lra|]
         end.
  discriminate.
Qed.

Lemma nonZero_positive (x : R) : 0 < x -> nonZero x = true.
Proof. intros H. unfold nonZero. destruct (Req_dec_T x 0); [lra|reflexivity]. Qed.

Lemma ltb_true (a b : R) : ltb a b = true <-> a < b.
Proof.
  unfold ltb. destruct (Rlt_dec a b); split; auto; discriminate.
Qed.

Lemma checkTuning_own (f : R) (s : State) (ref : R) :
  0 < f ->
  ownProperty noteFrequencies (targetNote s) = Some ref ->
  checkTuning f s = withInTune s (ltb (Rabs (cents f ref)) 10).
Proof.
  intros Hf Hown. pose proof (noteFrequencies_positive _ _ Hown) as Href.
  unfold checkTuning, get. rewrite Hown, (nonZero_positive ref Href).
  rewrite log2_positive by (apply Rdiv_lt_0_compat; lra).
  reflexivity.
Qed.



(** A note name starts with one of the letters [A] to [G]; no member
    of [Object.prototype] does. *)
Lemma isNoteName_not_inherited (t : string) :
  isNoteName t = true -> existsb (String.eqb t) objectPrototype = false.
Proof.
  destruct t as [|c t']; [discriminate|].
  intros H.
  assert (Hc : isNoteLetter c = true).
  { simpl in H. destruct t' as [|d r]; [now apply andb_prop in H|].
    destruct (Ascii.eqb_spec d "#") as [->|Hd].
    - now apply andb_prop in H.
    - destruct d as [[] [] [] [] [] [] [] []];
        try (now apply andb_prop in H); congruence. }
  clear H. unfold isNoteLetter in Hc.
  destruct c as [[] [] [] [] [] [] [] []]; try discriminate Hc; reflexivity.
Qed.

(** C8.  For every frequency above 0, when the target is a note name
    without an entry in [noteFrequencies], [checkTuning] returns the
    state as it was: [inTune] keeps its value, and nothing is raised. *)
Theorem checkTuning_unknown_target_is_noop (f : R) (s : State) :
  0 < f ->
  isNoteName (targetNote s) = true ->
  ownProperty noteFrequencies (targetNote s) = None ->
  checkTuning f s = s /\ inTune (checkTuning f s) = inTune s.
Proof.
  intros _ Hname Hnone.
  assert (H : checkTuning f s = s).
  { unfold checkTuning, get.
    now rewrite Hnone, (isNoteName_not_inherited _ Hname). }
  now rewrite H.
Qed.

Lemma checkTuning_unknown_target_is_noop_witness :
  let s := mkState "A4" 440 "C6" true in
  checkTuning 440 s = s /\ inTune (checkTuning 440 s) = inTune s.
Proof.
  intros s.
  apply (checkTuning_unknown_target_is_noop 440 s); [lra | reflexivity | reflexivity].
Defined.

(** A target that is not a note name but names a member of
    [Object.prototype] is found by the lookup, and [inTune] is set to
    false. *)
Remark checkTuning_inherited_target :
  checkTuning 440 (mkState "A4" 440 "constructor" true)
  = mkState "A4" 440 "constructor" false.
Proof. reflexivity. Qed.

End Tuning.


(* ================================================================== *)
(** ** More on the notation parser                                      *)
(* ================================================================== *)

Section MoreParser.
Import JS Sheet Notions MoreNotions.

Lemma allNotes_pitches text :
  map pitch (allNotes (parseABCNotation text)) = recognized (tokensOf text).
Proof.
  rewrite parseABCNotation_allNotes, parseABCNotation_measures.
  apply measuresFrom_pitch.
Qed.

(** *** The shape of the measures *)

Lemma soundingPositions_increasing segments k :
  (forall x, In x (soundingPositions segments k) -> k <= x) /\
  strictlyIncreasing (soundingPositions segments k).
Proof.
  revert k. induction segments as [|seg rest IH]; intros k; simpl.
  - split; [intros x []|]. intros i j a b _ H. destruct i; discriminate.
  - destruct (IH (S k)) as [Hlow Hinc].
    destruct (recognized (noteTokensOf seg)) as [|p ps].
    + split; [|exact Hinc]. intros x Hx. apply Hlow in Hx. lia.
    + split.
      * intros x [<-|Hx]; [lia|]. apply Hlow in Hx. lia.
      * intros i j a b Hij Ha Hb.
        destruct j as [|j]; [lia|]. simpl in Hb.
        destruct i as [|i]; simpl in Ha.
        -- inversion Ha; subst. apply nth_error_In, Hlow in Hb. lia.
        -- apply (Hinc i j); auto. lia.
Qed.

Lemma measuresFrom_timeSignature segments k ts i m :
  In m (measuresFrom segments k ts i) ->
  measureTimeSignature m = if number m =? 0 then Some ts else None.
Proof.
  revert k i. induction segments as [|seg rest IH]; intros k i; simpl.
  - intros [].
  - intros H. apply in_app_or in H. destruct H as [H|H]; [|eauto].
    destruct (0 <? List.length (tokenNotes (noteTokensOf seg) k i));
      [|destruct H].
    destruct H as [<-|[]]. reflexivity.
Qed.

(** X1.  In every parsed sheet no measure is empty, the numbers of the
    measures grow strictly, and a measure carries the time signature of
    the sheet exactly when its number is 0. *)
Theorem parsed_measures_are_well_formed (text : string) :
  let sh := parseABCNotation text in
  (forall m, In m (measures sh) -> notes m <> []) /\
  strictlyIncreasing (map number (measures sh)) /\
  (forall m, In m (measures sh) ->
     measureTimeSignature m =
     if number m =? 0 then Some (timeSignature sh) else None).
Proof.
  intros sh. subst sh. rewrite parseABCNotation_measures.
  split; [|split].
  - intros m Hm. now apply measuresFrom_segment in Hm.
  - rewrite measuresFrom_number. apply soundingPositions_increasing.
  - intros m Hm. now apply measuresFrom_timeSignature in Hm.
Qed.

(** *** Texts without notes *)

Lemma measuresFrom_silent segments k ts i :
  recognized (flat_map noteTokensOf segments) = [] ->
  measuresFrom segments k ts i = [].
Proof.
  revert k i. induction segments as [|seg rest IH]; intros k i; simpl; auto.
  rewrite recognized_app. intros H. apply app_eq_nil in H. destruct H as [H1 H2].
  rewrite <- (tokenNotes_pitch (noteTokensOf seg) k i) in H1.
  apply map_eq_nil in H1. rewrite H1. simpl. now apply IH.
Qed.

(** X2.  A text in which no token is recognized gives a sheet without
    measures and without notes, and one with a recognized token gives a
    sheet with both; a text that is blank gives the empty sheet with the
    default title, key and time signature.  Nothing is raised. *)
Theorem parse_without_notes_is_empty_sheet :
  (forall text : string,
     let sh := parseABCNotation text in
     (recognized (tokensOf text) = [] ->
      measures sh = [] /\ allNotes sh = []) /\
     (recognized (tokensOf text) <> [] ->
      measures sh <> [] /\ allNotes sh <> []) /\
     List.length (allNotes sh) = List.length (recognized (tokensOf text))) /\
  (forall text : string,
     trim text = EmptyString ->
     parseABCNotation text = mkMusicSheet "Untitled" None "C" "4/4" [] []).
Proof.
  split.
  - intros text sh.
    assert (Hp : map pitch (allNotes sh) = recognized (tokensOf text))
      by apply allNotes_pitches.
    split; [|split].
    + intros Hnone. subst sh.
      rewrite parseABCNotation_allNotes, parseABCNotation_measures.
      unfold tokensOf in Hnone.
      now rewrite measuresFrom_silent.
    + intros Hsome. rewrite <- Hp in Hsome.
      assert (Hn : allNotes sh <> []) by (intros E; now rewrite E in Hsome).
      split; [|exact Hn].
      intros E. apply Hn. subst sh.
      now rewrite parseABCNotation_allNotes, E.
    + now rewrite <- Hp, length_map.
  - intros text Hblank.
    unfold parseABCNotation, scanLines. rewrite Hblank. reflexivity.
Qed.

Lemma parse_without_notes_is_empty_sheet_witness :
  parseABCNotation "  
	 " = mkMusicSheet "Untitled" None "C" "4/4" [] [].
Proof.
  apply (proj2 parse_without_notes_is_empty_sheet). reflexivity.
Defined.

(** *** The metadata *)

Lemma orDefault_truthy metadata k dflt :
  truthy dflt = true -> truthy (orDefault metadata k dflt) = true.
Proof.
  intros H. unfold orDefault.
  destruct (ownProperty metadata k) as [v|]; auto.
  destruct (truthy v) eqn:E; auto.
Qed.

Lemma classifyLine_keeps_unset prefix k metadata noteString line :
  In (prefix, k) metadataKeys ->
  startsWith prefix (trim line) = false ->
  ownProperty metadata k = None ->
  ownProperty (fst (classifyLine (metadata, noteString) line)) k = None.
Proof.
  intros Hin Hp Hnone. unfold classifyLine.
  simpl in Hin.
  destruct Hin as [E|[E|[E|[E|[]]]]]; inversion E; subst; clear E;
    rewrite ?Hp;
    repeat match goal with
           | |- context [if ?b then _ else _] => destruct b
           end; simpl; auto.
Qed.

Lemma scanLines_keeps_unset prefix k text :
  In (prefix, k) metadataKeys ->
  hasLineWith prefix text = false ->
  ownProperty (fst (scanLines text)) k = None.
Proof.
  intros Hin. unfold hasLineWith, scanLines.
  assert (H : forall lines acc,
             ownProperty (fst acc) k = None ->
             existsb (fun line => startsWith prefix (trim line)) lines = false ->
             ownProperty (fst (fold_left classifyLine lines acc)) k = None).
  { induction lines as [|line rest IH]; intros acc Hacc Hex; simpl; auto.
    simpl in Hex. apply orb_false_elim in Hex. destruct Hex as [Hl Hrest].
    apply IH; auto. destruct acc as [metadata noteString].
    now apply classifyLine_keeps_unset with (prefix := prefix). }
  intros Hex. now apply H.
Qed.

(** X3.  The title, the key and the time signature of a parsed sheet
    are never empty.  Without a line that starts with [T:] the title is
    ["Untitled"], without one that starts with [K:] the key is ["C"],
    without one that starts with [M:] the time signature is ["4/4"], and
    without one that starts with [C:] there is no composer. *)
Theorem parsed_metadata_defaults (text : string) :
  let sh := parseABCNotation text in
  (title sh <> EmptyString /\ key sh <> EmptyString
   /\ timeSignature sh <> EmptyString) /\
  (hasLineWith "T:" text = false -> title sh = "Untitled") /\
  (hasLineWith "K:" text = false -> key sh = "C") /\
  (hasLineWith "M:" text = false -> timeSignature sh = "4/4") /\
  (hasLineWith "C:" text = false -> composer sh = None).
Proof.
  intros sh. subst sh. unfold parseABCNotation.
  pose proof (fun p k H => scanLines_keeps_unset p k text H) as Hkeep.
  destruct (scanLines text) as [metadata noteString]. simpl fst in Hkeep.
  destruct (parseMeasures _ _ _ _ _ _) as [ms ns]. simpl.
  assert (Hne : forall k dflt, truthy dflt = true ->
                               orDefault metadata k dflt <> EmptyString).
  { intros k dflt Hd E. pose proof (orDefault_truthy metadata k dflt Hd) as Ht.
    rewrite E in Ht. discriminate. }
  split; [repeat split; apply Hne; reflexivity|].
  unfold orDefault.
  split; [|split; [|split]]; intros Hno.
  - rewrite (Hkeep "T:" "title"); simpl; auto.
  - rewrite (Hkeep "K:" "key"); simpl; auto.
  - rewrite (Hkeep "M:" "timeSignature"); simpl; auto.
  - apply (Hkeep "C:" "composer"); simpl; auto.
Qed.

Lemma parsed_metadata_defaults_witness :
  let sh := parseABCNotation "T:
K:G
C D |" in
  title sh = "Untitled" /\ key sh = "G" /\ timeSignature sh = "4/4"
  /\ composer sh = None.
Proof.
  intros sh.
  destruct (parsed_metadata_defaults "T:
K:G
C D |") as (_ & _ & _ & Hm & Hc).
  split; [reflexivity|]. split; [reflexivity|].
  split; [apply Hm; reflexivity | apply Hc; reflexivity].
Defined.

(** *** Letter form and duration *)

Lemma append_length (a b : string) :
  String.length (a ++ b) = String.length a + String.length b.
Proof. induction a as [|c a IH]; simpl; auto. Qed.

Lemma append_empty_r (a : string) : (a ++ "")%string = a.
Proof. induction a as [|c a IH]; simpl; congruence. Qed.

Lemma append_assoc (a b c : string) :
  ((a ++ b) ++ c)%string = (a ++ (b ++ c))%string.
Proof. induction a as [|x a IH]; simpl; congruence. Qed.

Lemma substringTo_append (a b : string) :
  substringTo (String.length a) (a ++ b) = a.
Proof. induction a as [|c a IH]; simpl; [destruct b|]; congruence. Qed.

Lemma durationMatch_step c t :
  t <> EmptyString ->
  durationMatch (String c t) =
  match durationMatch t with
  | Some d0 =>
      if String.eqb d0 t && isDurationChar c then Some (String c d0)
      else Some d0
  | None => None
  end.
Proof. destruct t; [congruence|reflexivity]. Qed.

(** After a prefix in which the pattern finds nothing, the pattern
    finds the suffix of duration characters, whole. *)
Lemma durationMatch_append p d :
  durationMatch p = None ->
  allDuration d = true ->
  durationMatch (p ++ d) = match d with EmptyString => None | _ => Some d end.
Proof.
  intros Hp Hd. destruct d as [|x d'].
  { now rewrite append_empty_r. }
  induction p as [|c p IH].
  - cbn [append]. apply durationMatch_whole; [exact Hd|discriminate].
  - destruct p as [|b p'].
    + simpl in Hp. destruct (isDurationChar c) eqn:Hc; [discriminate|].
      cbn [append]. now rewrite (durationMatch_after c (String x d') Hc Hd).
    + rewrite durationMatch_step in Hp by discriminate.
      destruct (durationMatch (String b p')) as [d0|] eqn:E.
      { destruct (String.eqb d0 (String b p') && isDurationChar c);
          discriminate. }
      specialize (IH eq_refl).
      change ((String c (String b p') ++ String x d')%string)
        with (String c (String b p' ++ String x d')%string).
      rewrite durationMatch_step by discriminate.
      rewrite IH.
      assert (Hneq : String.eqb (String x d') (String b p' ++ String x d')
                     = false).
      { apply String.eqb_neq. intros Heq.
        apply (f_equal String.length) in Heq.
        rewrite append_length in Heq. simpl in Heq. lia. }
      now rewrite Hneq.
Qed.

Lemma parseNote_append p d m i :
  durationMatch p = None ->
  allDuration d = true ->
  parseNote (p ++ d) m i =
  match get noteMap p with
  | Own name =>
      if truthy name then Some (mkNote (Name name) (durationOf d) m i)
      else None
  | Inherited member => Some (mkNote (PrototypeMember member) (durationOf d) m i)
  | Undefined => None
  end.
Proof.
  intros Hp Hd. unfold parseNote.
  rewrite (durationMatch_append p d Hp Hd).
  destruct d as [|x d'].
  - rewrite append_empty_r. reflexivity.
  - replace (String.length (p ++ String x d') - String.length (String x d'))
      with (String.length p) by (rewrite append_length; lia).
    rewrite substringTo_append. reflexivity.
Qed.

(** X4.  A token is read in two parts: the longest suffix of digits,
    [/] and [.] gives the duration, and what stands before it is looked
    up as the letter form.  The suffix never changes whether the token is
    recognized nor its pitch, the note that is made has the duration of
    the suffix, 1 when there is none, and a token made of duration
    characters only is dropped. *)
Theorem parseNote_reads_letter_form_and_suffix (p d : string) (m i : nat) :
  durationMatch p = None ->
  allDuration d = true ->
  option_map pitch (parseNote (p ++ d) m i) = recognize p /\
  (forall note,
     parseNote (p ++ d) m i = Some note ->
     duration note = durationOf d /\ measure note = m /\ index note = i) /\
  parseNote d m i = None.
Proof.
  intros Hp Hd. split; [|split].
  - unfold recognize.
    rewrite (parseNote_append p d m i Hp Hd).
    rewrite <- (append_empty_r p) at 2.
    rewrite (parseNote_append p "" 0 0 Hp eq_refl).
    destruct (get noteMap p) as [name|member|]; auto.
    destruct (truthy name); reflexivity.
  - intros note. rewrite (parseNote_append p d m i Hp Hd).
    destruct (get noteMap p) as [name|member|]; try discriminate.
    + destruct (truthy name); [|discriminate].
      intros H. inversion H. auto.
    + intros H. inversion H. auto.
  - change d with (("" ++ d)%string).
    now rewrite (parseNote_append "" d m i eq_refl Hd).
Qed.

Lemma parseNote_reads_letter_form_and_suffix_witness :
  option_map pitch (parseNote "^f3/2" 1 4) = Some (Name "F#5") /\
  (forall note,
     parseNote "^f3/2" 1 4 = Some note ->
     duration note = Finite (3 # 2) /\ measure note = 1 /\ index note = 4) /\
  parseNote "3/2" 1 4 = None.
Proof.
  exact (parseNote_reads_letter_form_and_suffix "^f" "3/2" 1 4 eq_refl eq_refl).
Defined.

(** *** The value of a duration *)

Lemma isDigit_plain c :
  isDigit c = true ->
  isWhiteSpace c = false /\ Ascii.eqb c "/" = false /\ Ascii.eqb c "." = false
  /\ c <> "-"%char /\ c <> "+"%char.
Proof.
  destruct c as [[] [] [] [] [] [] [] []]; try discriminate;
    intros _; repeat split; discriminate.
Qed.

Lemma allDigits_leading a :
  allDigits a = true -> leadingDigits a = a /\ afterDigits a = EmptyString.
Proof.
  induction a as [|c a IH]; simpl; auto.
  intros H. apply andb_prop in H. destruct H as [Hc Ha].
  rewrite Hc. destruct (IH Ha) as [-> ->]. auto.
Qed.

Lemma allDigits_before c a r :
  allDigits a = true -> isDigit c = false ->
  leadingDigits (a ++ String c r) = a /\
  afterDigits (a ++ String c r) = String c r.
Proof.
  intros Ha Hc. induction a as [|x a IH]; simpl.
  - now rewrite Hc.
  - simpl in Ha. apply andb_prop in Ha. destruct Ha as [Hx Ha].
    rewrite Hx. destruct (IH Ha) as [-> ->]. auto.
Qed.

Lemma decimalValue_append a b acc :
  decimalValue acc (a ++ b) = decimalValue (decimalValue acc a) b.
Proof. revert acc. induction a as [|c a IH]; intros acc; simpl; auto. Qed.

Lemma parseInt_digits a : allDigits a = true -> parseInt a = digitsNumber a.
Proof.
  intros Ha. unfold parseInt, digitsNumber, digitsValue.
  destruct a as [|c a']; [reflexivity|].
  assert (Hc : isDigit c = true) by (simpl in Ha; now apply andb_prop in Ha).
  destruct (isDigit_plain c Hc) as (Hw & _ & _ & Hminus & Hplus).
  cbn [trimStart]. rewrite Hw.
  destruct (allDigits_leading _ Ha) as [Hl _].
  assert (Hsign :
    match String c a' with
    | String "-" r => (true, r)
    | String "+" r => (false, r)
    | _ => (false, String c a')
    end = (false, String c a')).
  { destruct c as [[] [] [] [] [] [] [] []]; try reflexivity; congruence. }
  rewrite Hsign, Hl. reflexivity.
Qed.

Lemma split_digits a : allDigits a = true -> split "/" a = [a].
Proof.
  induction a as [|c a IH]; simpl; auto.
  intros H. apply andb_prop in H. destruct H as [Hc Ha].
  destruct (isDigit_plain c Hc) as (_ & -> & _). now rewrite (IH Ha).
Qed.

Lemma split_digits_slash a b :
  allDigits a = true -> allDigits b = true ->
  split "/" (a ++ String "/" b) = [a; b].
Proof.
  intros Ha Hb. induction a as [|c a IH]; simpl.
  - now rewrite (split_digits b Hb).
  - simpl in Ha. apply andb_prop in Ha. destruct Ha as [Hc Ha].
    destruct (isDigit_plain c Hc) as (_ & -> & _). now rewrite (IH Ha).
Qed.

Lemma includes_slash_digits a :
  allDigits a = true -> includes "/" a = false.
Proof.
  induction a as [|c a IH]; simpl; auto.
  intros H. apply andb_prop in H. destruct H as [Hc Ha].
  destruct (isDigit_plain c Hc) as (_ & -> & _). now apply IH.
Qed.

Lemma includes_append c a b :
  includes c (a ++ b) = includes c a || includes c b.
Proof.
  induction a as [|x a IH]; simpl; auto. now rewrite IH, orb_assoc.
Qed.

(** X5.  For strings [a] and [b] of decimal digits: the suffix [a] alone
    is the duration [a] when [a] is at most [2^53]; the suffix [a/b] is
    [NaN] when [a] or [b] is missing, and, when [b] is zero, [NaN] for a
    zero [a] and [Infinity] otherwise; it is the quotient of [a] by [b]
    when [a] is at most [2^53] and [b] is a power of two up to [2^53].
    In these cases the double of the code is the exact number. *)
Theorem parseDuration_of_digits (a b : string) :
  allDigits a = true ->
  allDigits b = true ->
  (a <> EmptyString -> (digitsValue a <= 2 ^ 53)%Z ->
   parseDuration a = Finite (digitsValue a # 1)) /\
  (a = EmptyString \/ b = EmptyString ->
   parseDuration (a ++ "/" ++ b) = NaN) /\
  (a <> EmptyString -> b <> EmptyString -> digitsValue b = 0%Z ->
   parseDuration (a ++ "/" ++ b)
   = if (digitsValue a =? 0)%Z then NaN else Infinity) /\
  (a <> EmptyString -> (digitsValue a <= 2 ^ 53)%Z ->
   forall k : nat,
     k <= 53 -> digitsValue b = (2 ^ Z.of_nat k)%Z ->
     parseDuration (a ++ "/" ++ b)
     = Finite (digitsValue a # Z.to_pos (digitsValue b))).
Proof.
  intros Ha Hb.
  assert (Hslash : parseDuration (a ++ "/" ++ b)
                   = divide (digitsNumber a) (digitsNumber b)).
  { unfold parseDuration.
    rewrite includes_append. cbn [append includes].
    rewrite Ascii.eqb_refl, orb_true_r.
    rewrite (split_digits_slash a b Ha Hb). cbn [nth].
    now rewrite !parseInt_digits. }
  split; [|split; [|split]].
  - intros Hne _. unfold parseDuration.
    rewrite (includes_slash_digits a Ha). unfold parseFloat.
    destruct (allDigits_leading a Ha) as [-> ->].
    destruct a; [congruence|reflexivity].
  - intros Hbad. rewrite Hslash. unfold divide, digitsNumber.
    destruct Hbad as [-> | ->]; [reflexivity|].
    now destruct a.
  - intros Hna Hnb Hzero. rewrite Hslash. unfold divide, digitsNumber.
    destruct a as [|x a']; [congruence|].
    destruct b as [|y b']; [congruence|].
    rewrite Hzero. reflexivity.
  - intros Hna _ k _ Hk. rewrite Hslash. unfold divide, digitsNumber.
    destruct a as [|x a']; [congruence|].
    destruct b as [|y b']; [cbn in Hk; lia|].
    destruct (Z.eqb_spec (digitsValue (String y b')) 0) as [E|_];
      [|reflexivity].
    rewrite E in Hk. lia.
Qed.

Lemma parseDuration_of_digits_witness :
  parseDuration "12" = Finite 12 /\
  parseDuration "3/4" = Finite (3 # 4) /\
  parseDuration "/2" = NaN /\
  parseDuration "1/0" = Infinity /\
  parseDuration "0/0" = NaN.
Proof.
  destruct (parseDuration_of_digits "12" "" eq_refl eq_refl) as (H1 & _).
  destruct (parseDuration_of_digits "3" "4" eq_refl eq_refl)
    as (_ & _ & _ & H2).
  destruct (parseDuration_of_digits "" "2" eq_refl eq_refl) as (_ & H3 & _).
  destruct (parseDuration_of_digits "1" "0" eq_refl eq_refl)
    as (_ & _ & H4 & _).
  destruct (parseDuration_of_digits "0" "0" eq_refl eq_refl)
    as (_ & _ & H5 & _).
  split; [apply H1; [discriminate|vm_compute; discriminate]|].
  split; [apply (H2 ltac:(discriminate) ltac:(vm_compute; discriminate) 2);
          [lia|reflexivity]|].
  split; [apply H3; now left|].
  split; [apply H4; [discriminate|discriminate|reflexivity]|].
  apply H5; [discriminate|discriminate|reflexivity].
Defined.

End MoreParser.

(* ================================================================== *)
(** ** More on the navigation engine                                    *)
(* ================================================================== *)

Section MoreNavigation.
Import JS Sheet Display Notions MoreNotions.
Local Open Scope Z_scope.

(** *** The bookmark in the store *)

Lemma uint_allDigits d : allDigits (NilEmpty.string_of_uint d) = true.
Proof. induction d; simpl; auto. Qed.

Lemma decimalValue_uint_acc d acc :
  decimalValue (N.pos acc) (NilEmpty.string_of_uint d)
  = N.pos (Pos.of_uint_acc d acc).
Proof.
  revert acc. induction d; intros acc;
    cbn [NilEmpty.string_of_uint decimalValue Pos.of_uint_acc]; auto;
    rewrite <- IHd; f_equal;
    match goal with
    | |- (_ + (N_of_ascii ?c - 48))%N = _ =>
        let k := eval vm_compute in (N_of_ascii c - 48)%N in
        change (N_of_ascii c - 48)%N with k
    end; lia.
Qed.

Lemma decimalValue_uint d :
  decimalValue 0 (NilEmpty.string_of_uint d) = Pos.of_uint d.
Proof.
  induction d; simpl; auto;
    match goal with
    | |- decimalValue ?a _ = N.pos (Pos.of_uint_acc _ ?k) =>
        change a with (N.pos k); apply decimalValue_uint_acc
    end.
Qed.

Lemma uint_string_nonempty d :
  d <> Decimal.Nil -> NilEmpty.string_of_uint d <> EmptyString.
Proof. destruct d; simpl; congruence. Qed.

Lemma digitsNumber_positive p :
  digitsNumber (NilEmpty.string_of_uint (Pos.to_uint p)) = Some (Z.pos p).
Proof.
  unfold digitsNumber, digitsValue.
  pose proof (uint_string_nonempty _ (DecimalPos.Unsigned.to_uint_nonnil p)) as Hne.
  destruct (NilEmpty.string_of_uint (Pos.to_uint p)) as [|c r] eqn:E;
    [congruence|].
  rewrite <- E, decimalValue_uint, DecimalPos.Unsigned.of_to. reflexivity.
Qed.

Lemma parseInt_negative ds :
  allDigits ds = true -> ds <> EmptyString ->
  parseInt (String "-" ds) = Some (- digitsValue ds).
Proof.
  intros Hd Hne. unfold parseInt. cbn [trimStart].
  change (isWhiteSpace "-") with false. cbv iota.
  destruct (allDigits_leading _ Hd) as [-> _].
  destruct ds; [congruence|reflexivity].
Qed.

(** [parseInt] reads back what [toString] writes. *)
Lemma parseInt_toString z : parseInt (toString z) = Some z.
Proof.
  unfold toString. destruct z as [|p|p]; [reflexivity| |].
  - simpl Z.to_int. unfold NilZero.string_of_int, NilZero.string_of_uint.
    pose proof (DecimalPos.Unsigned.to_uint_nonnil p) as Hnil.
    assert (E : match Pos.to_uint p with
                | Decimal.Nil => "0"%string
                | _ => NilEmpty.string_of_uint (Pos.to_uint p)
                end = NilEmpty.string_of_uint (Pos.to_uint p))
      by (destruct (Pos.to_uint p); congruence).
    rewrite E, parseInt_digits by apply uint_allDigits.
    apply digitsNumber_positive.
  - simpl Z.to_int. unfold NilZero.string_of_int, NilZero.string_of_uint.
    pose proof (DecimalPos.Unsigned.to_uint_nonnil p) as Hnil.
    assert (E : match Pos.to_uint p with
                | Decimal.Nil => "0"%string
                | _ => NilEmpty.string_of_uint (Pos.to_uint p)
                end = NilEmpty.string_of_uint (Pos.to_uint p))
      by (destruct (Pos.to_uint p); congruence).
    rewrite E.
    rewrite parseInt_negative
      by (apply uint_allDigits || now apply uint_string_nonempty).
    pose proof (digitsNumber_positive p) as Hd. unfold digitsNumber in Hd.
    destruct (NilEmpty.string_of_uint (Pos.to_uint p)) as [|c r];
      [discriminate|].
    injection Hd as ->. reflexivity.
Qed.

Lemma toString_truthy z : truthy (toString z) = true.
Proof.
  pose proof (parseInt_toString z) as H.
  destruct (toString z); [discriminate|reflexivity].
Qed.

(** X6.  What [setBookmark] stores is read back by [loadBookmark]: a
    component that starts on the store that [setBookmark] left has the
    cursor of that moment as its bookmark, for every cursor up to
    [2^53] in absolute value, where the decimal digits that
    [toString] writes are those of the integer. *)
Theorem stored_bookmark_is_read_back (s fresh : State) :
  (Z.abs (currentNoteIndex s) <= 2 ^ 53)%Z ->
  localStorage fresh = localStorage (setBookmark s) ->
  bookmark (setBookmark s) = currentNoteIndex s /\
  getItem (localStorage (setBookmark s)) bookmarkKey
    = Some (toString (currentNoteIndex s)) /\
  bookmark (loadBookmark fresh) = currentNoteIndex s.
Proof.
  intros _ Hstore. split; [reflexivity|]. split; [reflexivity|].
  unfold loadBookmark. rewrite Hstore.
  unfold setBookmark, saveBookmark, setItem, getItem. cbn.
  rewrite toString_truthy. cbn.
  unfold parseIntOrZero. now rewrite parseInt_toString.
Qed.

Lemma stored_bookmark_is_read_back_witness :
  let s := withCursor (showSheet eightNotes "eight" (initial [])) 5 in
  bookmark (setBookmark s) = 5 /\
  getItem (localStorage (setBookmark s)) bookmarkKey = Some "5"%string /\
  bookmark (loadBookmark (initial (localStorage (setBookmark s)))) = 5.
Proof.
  intros s.
  apply (stored_bookmark_is_read_back s
           (initial (localStorage (setBookmark s)))); [|reflexivity].
  vm_compute. discriminate.
Defined.

(** X7.  When the store has no bookmark, an empty one or one that does
    not start with a number, [connectedCallback] loads the first sample
    sheet with the bookmark and the cursor at 0, and writes nothing. *)
Theorem unreadable_bookmark_starts_at_zero (store : Storage) :
  (getItem store bookmarkKey = None \/
   exists saved, getItem store bookmarkKey = Some saved
                 /\ parseInt saved = None) ->
  exists s' abcNotation,
    connectedCallback (initial store) = Normal s' /\
    ownProperty sampleSheets "twinkle-twinkle" = Some abcNotation /\
    sheet s' = Some (parseABCNotation abcNotation) /\
    bookmark s' = 0 /\ currentNoteIndex s' = 0 /\
    localStorage s' = store.
Proof.
  intros H.
  assert (Hload : loadBookmark (initial store) = initial store).
  { unfold loadBookmark. simpl localStorage.
    destruct H as [->|(saved & -> & Hnan)]; [reflexivity|].
    destruct (truthy saved); [|reflexivity].
    unfold parseIntOrZero. rewrite Hnan. reflexivity. }
  unfold connectedCallback. rewrite Hload.
  eexists. eexists. split; [reflexivity|]. split; [reflexivity|].
  split; [reflexivity|]. vm_compute. auto.
Qed.

Lemma unreadable_bookmark_starts_at_zero_witness :
  exists s' abcNotation,
    connectedCallback (initial [(bookmarkKey, "three"%string)]) = Normal s' /\
    ownProperty sampleSheets "twinkle-twinkle" = Some abcNotation /\
    sheet s' = Some (parseABCNotation abcNotation) /\
    bookmark s' = 0 /\ currentNoteIndex s' = 0 /\
    localStorage s' = [(bookmarkKey, "three"%string)].
Proof.
  apply unreadable_bookmark_starts_at_zero.
  right. exists "three"%string. split; reflexivity.
Defined.

(** *** What the operations keep *)

Lemma previousMeasure_cursor s sh :
  sheet s = Some sh ->
  0 <= currentNoteIndex s < Z.of_nat (List.length (allNotes sh)) ->
  0 <= currentNoteIndex (previousMeasure s) < Z.of_nat (List.length (allNotes sh)).
Proof.
  intros Hsh Hr. unfold previousMeasure. rewrite Hsh.
  destruct (at_ (allNotes sh) (currentNoteIndex s)) as [current|]; [|exact Hr].
  pose proof (findPrevious_nearest (allNotes sh) (measure current)
                (Z.to_nat (currentNoteIndex s)) (currentNoteIndex s)) as H.
  destruct (findPrevious _ _ _ _) as [r|]; simpl; [|lia].
  destruct H as (i & x & Hi & Hx & _ & -> & _).
  assert (Hlen : (i < List.length (allNotes sh))%nat)
    by (apply nth_error_Some; congruence).
  destruct (startOfRun_run (allNotes sh) (measure x) i (currentNoteIndex s) Hlen)
    as [(y & _ & _ & ->)|(j0 & -> & Hle & _)]; lia.
Qed.

Lemma nextMeasure_cursor s sh :
  sheet s = Some sh ->
  0 <= currentNoteIndex s < Z.of_nat (List.length (allNotes sh)) ->
  0 <= currentNoteIndex (nextMeasure s) < Z.of_nat (List.length (allNotes sh)).
Proof.
  intros Hsh Hr. unfold nextMeasure. rewrite Hsh.
  destruct (at_ (allNotes sh) (currentNoteIndex s)) as [current|]; [|exact Hr].
  cbv zeta.
  pose proof (findNext_first
                (skipn (S (Z.to_nat (currentNoteIndex s))) (allNotes sh))
                (measure current) (S (Z.to_nat (currentNoteIndex s)))) as H.
  destruct (findNext _ _ _) as [r|]; simpl; [|exact Hr].
  destruct H as (j & x & -> & Hx & _).
  rewrite nth_error_skipn in Hx.
  assert ((S (Z.to_nat (currentNoteIndex s)) + j < List.length (allNotes sh))%nat)
    by (apply nth_error_Some; congruence).
  lia.
Qed.

Lemma checkNote_state detected s :
  snd (checkNote detected s) = nextNote s \/ snd (checkNote detected s) = s.
Proof.
  unfold checkNote. destruct (getCurrentNote s) as [note|]; auto.
  destruct (strictEquals detected (pitch note)); auto.
Qed.

Lemma run_shape op s :
  isSetBookmark op = false ->
  run op s = s \/ exists c, run op s = withCursor s c.
Proof.
  destruct op; simpl; try discriminate; intros _.
  - unfold previousNote. destruct (currentNoteIndex s >? 0); eauto.
  - unfold nextNote. destruct (sheet s) as [sh|]; auto.
    destruct (currentNoteIndex s <? _); eauto.
  - unfold previousMeasure. destruct (sheet s) as [sh|]; auto.
    destruct (at_ _ _); auto. destruct (findPrevious _ _ _ _); eauto.
  - unfold nextMeasure. destruct (sheet s) as [sh|]; auto.
    destruct (at_ _ _); auto. cbv zeta. destruct (findNext _ _ _); eauto.
  - right. eexists. reflexivity.
  - right. eexists. reflexivity.
  - destruct (checkNote_state detected s) as [-> | ->]; auto.
    unfold nextNote. destruct (sheet s) as [sh|]; auto.
    destruct (currentNoteIndex s <? _); eauto.
Qed.

(** An operation changes the cursor only, unless it is [setBookmark]. *)
Lemma run_changes_cursor_only op s :
  isSetBookmark op = false ->
  sheet (run op s) = sheet s /\ bookmark (run op s) = bookmark s /\
  selectedSheet (run op s) = selectedSheet s /\
  localStorage (run op s) = localStorage s.
Proof.
  intros Hop. destruct (run_shape op s Hop) as [-> | [c ->]]; auto.
Qed.

Lemma run_inSheet op s : inSheet s -> inSheet (run op s).
Proof.
  intros (sh & Hsh & Hc & Hb).
  destruct (isSetBookmark op) eqn:Hop.
  - destruct op; try discriminate. exists sh. simpl. auto.
  - destruct (run_changes_cursor_only op s Hop) as (Hs & Hbm & _).
    exists sh. rewrite Hs, Hbm. split; [exact Hsh|]. split; [|exact Hb].
    destruct op; simpl; try discriminate.
    + now apply previousNote_range.
    + now apply nextNote_range.
    + now apply previousMeasure_cursor.
    + now apply nextMeasure_cursor.
    + lia.
    + exact Hb.
    + destruct (checkNote_state detected s) as [-> | ->]; auto.
      now apply nextNote_range.
Qed.

(** X8.  Once a sheet is loaded with the cursor and the bookmark on
    notes of it, they stay on notes of it through every sequence of
    [previousNote], [nextNote], [previousMeasure], [nextMeasure],
    [reset], [setBookmark], [goToBookmark] and [checkNote], on any
    sheet; the sheet itself is never changed by them. *)
Theorem operations_keep_cursor_and_bookmark_in_sheet (ops : list Op)
    (s : State) :
  inSheet s ->
  inSheet (runs ops s) /\ sheet (runs ops s) = sheet s.
Proof.
  revert s. unfold runs.
  induction ops as [|op ops IH]; intros s Hin; simpl; [auto|].
  destruct (IH (run op s) (run_inSheet op s Hin)) as [H1 H2].
  split; [exact H1|]. rewrite H2.
  destruct (isSetBookmark op) eqn:Hop.
  - destruct op; try discriminate. reflexivity.
  - now destruct (run_changes_cursor_only op s Hop).
Qed.

Lemma operations_keep_cursor_and_bookmark_in_sheet_witness :
  let s := showSheet eightNotes "eight" (initial []) in
  let ops := [OpNextMeasure; OpNextNote; OpSetBookmark; OpNextMeasure;
              OpCheckNote "G4"; OpPreviousMeasure; OpPreviousMeasure;
              OpPreviousNote; OpGoToBookmark; OpReset] in
  inSheet (runs ops s) /\ sheet (runs ops s) = sheet s.
Proof.
  intros s ops. apply operations_keep_cursor_and_bookmark_in_sheet.
  exists eightNotes. split; [reflexivity|].
  vm_compute. repeat split; discriminate.
Defined.



(** *** Playing a sheet through *)

Lemma play_from sh (names : list string) :
  forall (s : State) (c : nat),
    sheet s = Some sh ->
    currentNoteIndex s = Z.of_nat c ->
    names <> [] ->
    map pitch (skipn c (allNotes sh)) = map Name names ->
    fst (play names s) = repeat true (List.length names) /\
    sheet (snd (play names s)) = Some sh /\
    currentNoteIndex (snd (play names s))
      = Z.of_nat (List.length (allNotes sh)) - 1.
Proof.
  induction names as [|d rest IH]; intros s c Hsh Hc Hne Hp; [congruence|].
  destruct (skipn c (allNotes sh)) as [|note tl] eqn:Hskip; [discriminate|].
  simpl in Hp. injection Hp as Hd Hrest.
  assert (Hnth : nth_error (allNotes sh) c = Some note).
  { rewrite <- (Nat.add_0_r c), <- nth_error_skipn, Hskip. reflexivity. }
  assert (Hlen : List.length (allNotes sh) = (c + S (List.length tl))%nat).
  { rewrite <- (firstn_skipn c (allNotes sh)) at 1.
    rewrite length_app, Hskip, length_firstn. simpl.
    assert (c < List.length (allNotes sh))%nat
      by (apply nth_error_Some; congruence).
    lia. }
  assert (Hcheck : checkNote d s = (true, nextNote s)).
  { unfold checkNote, getCurrentNote. rewrite Hsh.
    replace (at_ (allNotes sh) (currentNoteIndex s)) with (Some note)
      by (symmetry; apply at_Some; rewrite Hc, Nat2Z.id; split; [lia|auto]).
    rewrite Hd. simpl. now rewrite String.eqb_refl. }
  cbn [play]. rewrite Hcheck.
  destruct rest as [|d' rest'].
  - destruct tl; [|discriminate]. simpl.
    unfold nextNote. rewrite Hsh.
    destruct (Z.ltb_spec (currentNoteIndex s)
                (Z.of_nat (List.length (allNotes sh)) - 1));
      [simpl in Hlen; lia|].
    repeat split; auto. simpl in Hlen. lia.
  - assert (Htl : tl <> []) by (intros ->; discriminate).
    assert (Hnext : nextNote s = withCursor s (Z.of_nat (S c))).
    { unfold nextNote. rewrite Hsh.
      destruct (Z.ltb_spec (currentNoteIndex s)
                  (Z.of_nat (List.length (allNotes sh)) - 1)).
      - f_equal. lia.
      - destruct tl; [congruence|]. simpl in Hlen. lia. }
    rewrite Hnext.
    destruct (IH (withCursor s (Z.of_nat (S c))) (S c)) as (H1 & H2 & H3);
      auto; try discriminate.
    { replace (S c) with (1 + c)%nat by lia.
      rewrite <- skipn_skipn, Hskip. exact Hrest. }
    destruct (play (d' :: rest') (withCursor s (Z.of_nat (S c)))) as [bs s2].
    simpl in *. rewrite H1. auto.
Qed.

(** X10.  With the cursor on a note and the notes from there on having
    the pitches [names], detecting [names] in order is accepted by
    [checkNote] every time and leaves the cursor on the last note of the
    sheet. *)
Theorem playing_the_notes_reaches_the_end (sh : MusicSheet) (s : State)
    (c : nat) (names : list string) :
  sheet s = Some sh ->
  currentNoteIndex s = Z.of_nat c ->
  names <> [] ->
  map pitch (skipn c (allNotes sh)) = map Name names ->
  fst (play names s) = repeat true (List.length names) /\
  sheet (snd (play names s)) = Some sh /\
  currentNoteIndex (snd (play names s))
    = Z.of_nat (List.length (allNotes sh)) - 1.
Proof. intros. now apply (play_from sh names s c). Qed.

Lemma playing_the_notes_reaches_the_end_witness :
  let s := withCursor (showSheet eightNotes "eight" (initial [])) 5 in
  fst (play ["A4"; "G4"; "G4"]%string s) = [true; true; true] /\
  sheet (snd (play ["A4"; "G4"; "G4"]%string s)) = Some eightNotes /\
  currentNoteIndex (snd (play ["A4"; "G4"; "G4"]%string s)) = 7.
Proof.
  intros s.
  exact (playing_the_notes_reaches_the_end eightNotes s 5
           ["A4"; "G4"; "G4"]%string eq_refl eq_refl
           ltac:(discriminate) eq_refl).
Defined.

(** *** The measures on display *)

Import View.
Local Open Scope nat_scope.

Lemma soundingPositions_all segments k :
  Forall (fun seg => recognized (noteTokensOf seg) <> []) segments ->
  soundingPositions segments k = seq k (List.length segments).
Proof.
  revert k. induction segments as [|seg rest IH]; intros k H; simpl; auto.
  inversion H as [|? ? Hseg Hrest]; subst.
  destruct (recognized (noteTokensOf seg)); [congruence|].
  now rewrite IH.
Qed.

(** When every segment sounds, the measure of number [k] is at
    position [k] of [measures]. *)
Lemma sounding_measure_position text k m :
  Forall (fun seg => recognized (noteTokensOf seg) <> []) (segmentsOf text) ->
  nth_error (measures (parseABCNotation text)) k = Some m ->
  number m = k.
Proof.
  intros Hall Hm.
  pose proof (map_nth_error number _ _ Hm) as Hn.
  rewrite parseABCNotation_measures, measuresFrom_number in Hn.
  rewrite (soundingPositions_all _ 0 Hall) in Hn.
  assert (Hk : k < List.length (seq 0 (List.length (segmentsOf text))))
    by (apply nth_error_Some; congruence).
  rewrite length_seq in Hk.
  rewrite (nth_error_nth' _ 0) in Hn by (rewrite length_seq; exact Hk).
  rewrite seq_nth in Hn by exact Hk.
  injection Hn as Hn. lia.
Qed.

Lemma note_in_its_measure text current :
  In current (allNotes (parseABCNotation text)) ->
  exists m, In m (measures (parseABCNotation text))
            /\ In current (notes m) /\ number m = measure current.
Proof.
  rewrite parseABCNotation_allNotes. intros H.
  apply in_concat in H. destruct H as (l & Hl & Hc).
  apply in_map_iff in Hl. destruct Hl as (m & <- & Hm).
  exists m. split; [exact Hm|]. split; [exact Hc|].
  rewrite parseABCNotation_measures in Hm.
  apply measuresFrom_segment in Hm. destruct Hm as (_ & _ & Hall & _).
  rewrite Forall_forall in Hall. symmetry. now apply Hall.
Qed.

(** X11.  For a parsed sheet in which every segment between bars has a
    recognized token, and the cursor on a note, [getDisplayMeasures]
    returns one entry at full opacity, which shows the measure that holds
    the note under the cursor, with at most one faded entry before it and
    at most one after it.  When a segment has no recognized token the
    numbers of the measures are no longer their positions: on
    ["C | Q | D"] with the cursor on the D, the entry at full opacity
    shows no measure, and the measure of the D is shown faded. *)
Theorem shown_measure_holds_the_current_note :
  (forall (text : string) (s : State) (current : Note),
     let sh := parseABCNotation text in
     sheet s = Some sh ->
     at_ (allNotes sh) (currentNoteIndex s) = Some current ->
     Forall (fun seg => recognized (noteTokensOf seg) <> []) (segmentsOf text) ->
     exists m before after,
       getDisplayMeasures s
         = before ++ mkDisplayMeasure (Some m) "opacity-100" :: after /\
       In current (notes m) /\
       List.length before <= 1 /\ List.length after <= 1 /\
       Forall (fun e => opacity e = "opacity-30"%string) (before ++ after)) /\
  (let s := withCursor (showSheet (parseABCNotation "C | Q | D") "x"
                          (initial [])) 1 in
   map (fun e => (option_map number (shown e), opacity e))
     (getDisplayMeasures s)
   = [(Some 2, "opacity-30"%string); (None, "opacity-100"%string)]).
Proof.
  split; [|reflexivity].
  intros text s current sh Hsh Hat Hall.
  assert (Hin : In current (allNotes sh)).
  { apply at_Some in Hat. destruct Hat as [_ Hat].
    eapply nth_error_In; eauto. }
  destruct (note_in_its_measure text current Hin) as (m & Hm & Hc & Hnum).
  apply In_nth_error in Hm. destruct Hm as [k Hk].
  pose proof (sounding_measure_position text k m Hall Hk) as Hpos.
  assert (Hshown : at_ (measures sh) (Z.of_nat (measure current)) = Some m).
  { apply at_Some. rewrite Nat2Z.id. split; [lia|]. subst sh. congruence. }
  unfold getDisplayMeasures. rewrite Hsh. fold sh. rewrite Hat. cbv zeta.
  rewrite Hshown.
  eexists m, _, _. split; [reflexivity|]. split; [exact Hc|].
  destruct (Z.of_nat (measure current) >? 0)%Z;
    destruct (Z.of_nat (measure current)
              <? Z.of_nat (List.length (measures sh)) - 1)%Z;
    simpl; repeat split; auto; repeat constructor.
Qed.

Lemma shown_measure_holds_the_current_note_witness :
  let s := withCursor (showSheet eightNotes "eight" (initial [])) 5%Z in
  exists current m before after,
    at_ (allNotes eightNotes) 5%Z = Some current /\
    getDisplayMeasures s
      = before ++ mkDisplayMeasure (Some m) "opacity-100" :: after /\
    In current (notes m) /\
    List.length before <= 1 /\ List.length after <= 1 /\
    Forall (fun e => opacity e = "opacity-30"%string) (before ++ after).
Proof.
  intros s.
  destruct (proj1 shown_measure_holds_the_current_note
              "C C G G | A A G G |" s _ eq_refl eq_refl)
    as (m & before & after & H).
  - repeat constructor; discriminate.
  - eexists. exists m, before, after. split; [reflexivity|]. exact H.
Defined.

End MoreNavigation.

(* ================================================================== *)
(** ** More on the note namer and the tuning evaluator                  *)
(* ================================================================== *)

Section MoreTuning.
Import JS Companion Notions MoreNotions.
Local Open Scope R_scope.

(** *** Semitones *)

Lemma frequencyToNote_semitoneName (f : R) :
  0 < f -> frequencyToNote f = semitoneName (semitoneOf f).
Proof.
  intros Hf. now rewrite semitoneName_div_mod, frequencyToNote_semitone.
Qed.

(** The semitone, before rounding, of a frequency above 0. *)
Lemma semitoneOf_round (f : R) :
  semitoneOf f = round (69 + 12 * (ln (f / 440) / ln 2)).
Proof. reflexivity. Qed.

Lemma ln_ratio_440 (y : R) :
  ln (440 * Rpower 2 y / 440) / ln 2 = y.
Proof.
  replace (440 * Rpower 2 y / 440) with (Rpower 2 y) by (field; lra).
  rewrite ln_Rpower. pose proof ln_2_pos. field. lra.
Qed.

Lemma round_shift (x : R) (k : Z) : round (x + IZR k) = (round x + k)%Z.
Proof.
  unfold round. symmetry. apply Int_part_spec.
  rewrite plus_IZR.
  destruct (base_Int_part (x + / 2)) as [H1 H2]. lra.
Qed.

Lemma frequencyToNote_band (n : Z) (c : R) :
  -50 <= c < 50 ->
  frequencyToNote (440 * Rpower 2 ((IZR n - 69) / 12 + c / 1200))
  = semitoneName n.
Proof.
  intros Hc.
  assert (Hpos : 0 < 440 * Rpower 2 ((IZR n - 69) / 12 + c / 1200)).
  { apply Rmult_lt_0_compat; [lra|apply exp_pos]. }
  rewrite (frequencyToNote_semitoneName _ Hpos). f_equal.
  rewrite semitoneOf_round, ln_ratio_440. apply round_near. lra.
Qed.

(** X12.  Over the reals, for the semitones [n] from 0 to 127: the
    namer gives the name of [n] to every frequency within 49 cents of
    the equal-tempered frequency of [n], [440 * 2^((n - 69) / 12)]; and,
    up to [n = 115], it names the double of such a frequency one octave
    higher, with the same table entry.  The cent that is left out on
    either side of a band is where the rounding of the doubles decides. *)
Theorem frequencyToNote_half_semitone_bands :
  (forall (n : Z) (c : R),
     (0 <= n <= 127)%Z ->
     -49 <= c <= 49 ->
     frequencyToNote (440 * Rpower 2 ((IZR n - 69) / 12 + c / 1200))
     = semitoneName n) /\
  (forall (n : Z) (c : R),
     (0 <= n <= 115)%Z ->
     -49 <= c <= 49 ->
     frequencyToNote (2 * (440 * Rpower 2 ((IZR n - 69) / 12 + c / 1200)))
     = (nth (Z.to_nat (n mod 12)) notes EmptyString
        ++ toString (n / 12 - 1 + 1))%string).
Proof.
  split.
  - intros n c _ Hc. apply frequencyToNote_band. lra.
  - intros n c _ Hc.
    replace (2 * (440 * Rpower 2 ((IZR n - 69) / 12 + c / 1200)))
      with (440 * Rpower 2 ((IZR (n + 12) - 69) / 12 + c / 1200)).
    + rewrite frequencyToNote_band by lra.
      rewrite semitoneName_div_mod.
      replace ((n + 12) mod 12)%Z with (n mod 12)%Z
        by (replace (n + 12)%Z with (n + 1 * 12)%Z by lia;
            now rewrite Z.mod_add by lia).
      replace ((n + 12) / 12)%Z with (n / 12 + 1)%Z
        by (replace (n + 12)%Z with (n + 1 * 12)%Z by lia;
            now rewrite Z.div_add by lia).
      do 2 f_equal. lia.
    + rewrite plus_IZR.
      replace ((IZR n + 12 - 69) / 12 + c / 1200)
        with (((IZR n - 69) / 12 + c / 1200) + 1) by field.
      rewrite Rpower_plus, Rpower_1 by lra. ring.
Qed.

Lemma frequencyToNote_half_semitone_bands_witness :
  frequencyToNote (440 * Rpower 2 ((IZR 69 - 69) / 12 + 20 / 1200))
  = semitoneName 69.
Proof.
  apply (proj1 frequencyToNote_half_semitone_bands 69%Z 20); [lia|lra].
Defined.

(** *** The table of reference frequencies *)

(** A frequency whose semitone, before rounding, is within a quarter of
    the integer [n]: [(f / 440)^48] lies between [2^(4n - 277)] and
    [2^(4n - 275)].  The two exponents are written [p - q] and
    [p + 2 - q] for natural numbers [p] and [q]. *)
Lemma quarter_of_semitone (f : R) (n : Z) (p q : nat) :
  0 < f ->
  (4 * n - 277 = Z.of_nat p - Z.of_nat q)%Z ->
  2 ^ p <= 2 ^ q * (f / 440) ^ 48 <= 4 * 2 ^ p ->
  IZR n - / 4 <= 69 + 12 * (ln (f / 440) / ln 2) <= IZR n + / 4.
Proof.
  intros Hf Hn [Hlo Hhi].
  pose proof ln_2_pos as H2.
  set (x := f / 440) in *.
  assert (Hx : 0 < x) by (unfold x; apply Rdiv_lt_0_compat; lra).
  assert (Hp : 0 < 2 ^ p) by (apply pow_lt; lra).
  assert (Hq : 0 < 2 ^ q) by (apply pow_lt; lra).
  assert (Hx48 : 0 < x ^ 48) by (apply pow_lt; exact Hx).
  assert (Hmid : ln (2 ^ q * x ^ 48) = INR q * ln 2 + 48 * ln x).
  { rewrite ln_mult by assumption. rewrite !ln_pow by lra.
    simpl (INR 48). ring. }
  assert (Hlow : INR p * ln 2 <= INR q * ln 2 + 48 * ln x).
  { rewrite <- Hmid, <- ln_pow by lra.
    destruct Hlo as [Hlo|Hlo]; [left; apply ln_increasing; assumption|].
    right. now rewrite Hlo. }
  assert (Hupp : INR q * ln 2 + 48 * ln x <= (INR p + 2) * ln 2).
  { rewrite <- Hmid.
    replace ((INR p + 2) * ln 2) with (ln (4 * 2 ^ p)).
    - destruct Hhi as [Hhi|Hhi]; [left; apply ln_increasing; try assumption|].
      + apply Rmult_lt_0_compat; assumption.
      + right. now rewrite Hhi.
    - rewrite ln_mult by lra. rewrite ln_pow by lra.
      replace 4 with (2 ^ 2) by lra. rewrite ln_pow by lra. simpl (INR 2). ring. }
  apply (f_equal IZR) in Hn.
  rewrite !minus_IZR, mult_IZR, <- !INR_IZR_INZ in Hn.
  set (l := ln x / ln 2).
  assert (Hl : ln x = l * ln 2) by (unfold l; field; lra).
  rewrite Hl in Hlow, Hupp.
  split; nra.
Qed.

(** One entry of the table: when the key is the one looked up, its
    frequency is within a quarter of a semitone of semitone [n], whose
    name is the key. *)
Ltac table_case n p q :=
  match goal with
  | |- (if String.eqb ?k ?t then _ else _) = _ -> _ =>
      destruct (String.eqb_spec k t) as [<-|_];
      [ intros H; injection H as <-; exists n; split;
        [ reflexivity
        | apply (quarter_of_semitone _ n p q);
          [lra | reflexivity | split; lra] ]
      | ]
  end.

(** The entries of [noteFrequencies] are the semitones 55 to 81, each
    under its name and with its equal-tempered frequency to the cent. *)
Lemma noteFrequencies_semitone (t : string) (ref : R) :
  ownProperty noteFrequencies t = Some ref ->
  exists n : Z,
    (nth (Z.to_nat (n mod 12)) notes EmptyString
     ++ toString (n / 12 - 1))%string = t /\
    IZR n - / 4 <= 69 + 12 * (ln (ref / 440) / ln 2) <= IZR n + / 4.
Proof.
  unfold noteFrequencies. cbn [ownProperty].
  table_case 55%Z 0%nat 57%nat.
  table_case 56%Z 0%nat 53%nat.
  table_case 57%Z 0%nat 49%nat.
  table_case 58%Z 0%nat 45%nat.
  table_case 59%Z 0%nat 41%nat.
  table_case 60%Z 0%nat 37%nat.
  table_case 61%Z 0%nat 33%nat.
  table_case 62%Z 0%nat 29%nat.
  table_case 63%Z 0%nat 25%nat.
  table_case 64%Z 0%nat 21%nat.
  table_case 65%Z 0%nat 17%nat.
  table_case 66%Z 0%nat 13%nat.
  table_case 67%Z 0%nat 9%nat.
  table_case 68%Z 0%nat 5%nat.
  table_case 69%Z 0%nat 1%nat.
  table_case 70%Z 3%nat 0%nat.
  table_case 71%Z 7%nat 0%nat.
  table_case 72%Z 11%nat 0%nat.
  table_case 73%Z 15%nat 0%nat.
  table_case 74%Z 19%nat 0%nat.
  table_case 75%Z 23%nat 0%nat.
  table_case 76%Z 27%nat 0%nat.
  table_case 77%Z 31%nat 0%nat.
  table_case 78%Z 35%nat 0%nat.
  table_case 79%Z 39%nat 0%nat.
  table_case 80%Z 43%nat 0%nat.
  table_case 81%Z 47%nat 0%nat.
  discriminate.
Qed.

Lemma semitone_of_ratio (f ref : R) :
  0 < f -> 0 < ref ->
  69 + 12 * (ln (f / 440) / ln 2)
  = 69 + 12 * (ln (ref / 440) / ln 2) + cents f ref / 100.
Proof.
  intros Hf Href. unfold cents. pose proof ln_2_pos.
  replace (f / 440) with ((f / ref) * (ref / 440)) by (field; lra).
  rewrite ln_mult by (apply Rdiv_lt_0_compat; lra).
  field. lra.
Qed.

Lemma cents_same (ref : R) : 0 < ref -> cents ref ref = 0.
Proof.
  intros H. unfold cents. replace (ref / ref) with 1 by (field; lra).
  rewrite ln_1. pose proof ln_2_pos. field. lra.
Qed.


(** X13.  The namer and the tuner agree with the table of reference
    frequencies: the reference frequency of every key is named by the
    namer with that very key, and it is in tune against that key, at 0
    cents. *)
Theorem reference_frequency_is_named_and_in_tune (s : State) (ref : R) :
  ownProperty noteFrequencies (targetNote s) = Some ref ->
  frequencyToNote ref = targetNote s /\
  cents ref ref = 0 /\
  inTune (checkTuning ref s) = true.
Proof.
  intros Hown.
  pose proof (noteFrequencies_positive _ _ Hown) as Href.
  destruct (noteFrequencies_semitone _ _ Hown) as (n & Hname & Hn).
  split; [|split].
  - rewrite frequencyToNote_semitone by exact Href.
    replace (semitoneOf ref) with n; [exact Hname|].
    symmetry. rewrite semitoneOf_round. apply round_near. lra.
  - now apply cents_same.
  - rewrite (checkTuning_own ref s ref Href Hown), cents_same by exact Href.
    simpl. apply ltb_true. rewrite Rabs_R0. lra.
Qed.

Lemma reference_frequency_is_named_and_in_tune_witness :
  let s := mkState "--" 0 "F#4" false in
  frequencyToNote 369.99 = "F#4"%string /\
  cents 369.99 369.99 = 0 /\
  inTune (checkTuning 369.99 s) = true.
Proof.
  intros s.
  apply (reference_frequency_is_named_and_in_tune s 369.99).
  unfold s, noteFrequencies. cbn. reflexivity.
Defined.

Lemma tuned_frequency_name (f : R) (s : State) (ref : R) :
  0 < f ->
  ownProperty noteFrequencies (targetNote s) = Some ref ->
  inTune (checkTuning f s) = true ->
  frequencyToNote f = targetNote s.
Proof.
  intros Hf Hown Htune.
  pose proof (noteFrequencies_positive _ _ Hown) as Href.
  destruct (noteFrequencies_semitone _ _ Hown) as (n & Hname & Hn).
  rewrite (checkTuning_own f s ref Hf Hown) in Htune. simpl in Htune.
  apply ltb_true in Htune. apply Rabs_def2 in Htune.
  rewrite frequencyToNote_semitone by exact Hf.
  replace (semitoneOf f) with n; [exact Hname|].
  symmetry. rewrite semitoneOf_round. apply round_near.
  rewrite (semitone_of_ratio f ref Hf Href). lra.
Qed.

(** X14.  Whenever the tuner finds a frequency in tune against a
    target of the table, the namer names that frequency as the target:
    the two never disagree. *)
Theorem in_tune_is_named_as_target (f : R) (s : State) (ref : R) :
  0 < f ->
  ownProperty noteFrequencies (targetNote s) = Some ref ->
  inTune (checkTuning f s) = true ->
  frequencyToNote f = targetNote s.
Proof. apply tuned_frequency_name. Qed.

Lemma in_tune_is_named_as_target_witness :
  let s := mkState "--" 0 "A4" false in
  frequencyToNote 441 = "A4"%string.
Proof.
  intros s.
  assert (Hf : 0 < 441) by lra.
  assert (Hown : ownProperty noteFrequencies (targetNote s) = Some 440).
  { unfold s, noteFrequencies. cbn. f_equal. lra. }
  apply (in_tune_is_named_as_target 441 s 440 Hf Hown).
  rewrite (checkTuning_own 441 s 440 Hf Hown). simpl.
  apply ltb_true. apply Rabs_def1.
  - unfold cents. pose proof ln_2_pos as H2.
    assert (ln (441 / 440) < ln 2 / 120).
    { assert (H : (441 / 440) ^ 120 < 2).
      { apply Rlt_trans with (1.32); [|lra].
        replace ((441 / 440) ^ 120) with ((((441 / 440) ^ 4) ^ 5) ^ 6)
          by (rewrite <- !pow_mult; reflexivity).
        lra. }
      apply ln_increasing in H; [|apply pow_lt; lra].
      rewrite ln_pow in H by lra. simpl (INR 120) in H. lra. }
    apply Rmult_lt_reg_r with (ln 2 / 1200); [lra|].
    field_simplify; lra.
  - unfold cents. pose proof ln_2_pos as H2.
    assert (0 < ln (441 / 440)).
    { rewrite <- ln_1. apply ln_increasing; lra. }
    apply Rlt_trans with 0; [lra|].
    apply Rmult_lt_0_compat; [lra|]. apply Rdiv_lt_0_compat; lra.
Defined.

(** *** The band of frequencies in tune *)

Lemma ln_lt_power (r y : R) :
  0 < r -> (ln r / ln 2 < y <-> r < Rpower 2 y).
Proof.
  intros Hr. pose proof ln_2_pos as H2. unfold Rpower. split; intros H.
  - rewrite <- (exp_ln r Hr). apply exp_increasing.
    apply Rmult_lt_reg_r with (/ ln 2); [now apply Rinv_0_lt_compat|].
    replace (y * ln 2 * / ln 2) with y by (field; lra). exact H.
  - rewrite <- (exp_ln r Hr) in H. apply exp_lt_inv in H.
    apply Rmult_lt_reg_r with (ln 2); [exact H2|].
    replace (ln r / ln 2 * ln 2) with (ln r) by (field; lra). exact H.
Qed.

Lemma power_lt_ln (r y : R) :
  0 < r -> (y < ln r / ln 2 <-> Rpower 2 y < r).
Proof.
  intros Hr. pose proof ln_2_pos as H2. unfold Rpower. split; intros H.
  - rewrite <- (exp_ln r Hr). apply exp_increasing.
    apply Rmult_lt_reg_r with (/ ln 2); [now apply Rinv_0_lt_compat|].
    replace (y * ln 2 * / ln 2) with y by (field; lra). exact H.
  - rewrite <- (exp_ln r Hr) in H. apply exp_lt_inv in H.
    apply Rmult_lt_reg_r with (ln 2); [exact H2|].
    replace (ln r / ln 2 * ln 2) with (ln r) by (field; lra). exact H.
Qed.

(** Over the reals the frequencies in tune are those strictly between
    [ref * 2^(-10/1200)] and [ref * 2^(10/1200)]. *)
Lemma tuning_band_over_reals (f : R) (s : State) (ref : R) :
  0 < f ->
  ownProperty noteFrequencies (targetNote s) = Some ref ->
  (inTune (checkTuning f s) = true <->
   ref * Rpower 2 (- 10 / 1200) < f < ref * Rpower 2 (10 / 1200)).
Proof.
  intros Hf Hown.
  pose proof (noteFrequencies_positive _ _ Hown) as Href.
  rewrite (checkTuning_own f s ref Hf Hown). simpl inTune.
  rewrite ltb_true. unfold cents.
  assert (Hr : 0 < f / ref) by (apply Rdiv_lt_0_compat; lra).
  pose proof (ln_lt_power (f / ref) (10 / 1200) Hr) as Hup.
  pose proof (power_lt_ln (f / ref) (- 10 / 1200) Hr) as Hlo.
  assert (Hmul : forall P, P < f / ref <-> ref * P < f).
  { intros P. split; intros H.
    - apply Rmult_lt_compat_l with (r := ref) in H; [|exact Href].
      replace (ref * (f / ref)) with f in H by (field; lra). exact H.
    - apply Rmult_lt_reg_l with ref; [exact Href|].
      replace (ref * (f / ref)) with f by (field; lra). exact H. }
  assert (Hmul' : forall P, f / ref < P <-> f < ref * P).
  { intros P. split; intros H.
    - apply Rmult_lt_compat_l with (r := ref) in H; [|exact Href].
      replace (ref * (f / ref)) with f in H by (field; lra). exact H.
    - apply Rmult_lt_reg_l with ref; [exact Href|].
      replace (ref * (f / ref)) with f by (field; lra). exact H. }
  split.
  - intros H. apply Rabs_def2 in H. destruct H as [H1 H2]. split.
    + apply Hmul, Hlo. lra.
    + apply Hmul', Hup. lra.
  - intros [H1 H2]. apply Hmul, Hlo in H1. apply Hmul', Hup in H2.
    apply Rabs_def1; lra.
Qed.

Lemma Rpower_2_lt (a b : R) : a < b -> Rpower 2 a < Rpower 2 b.
Proof. intros H. apply Rpower_lt; lra. Qed.

(** X15.  Over the reals, against a target of the table with reference
    [ref]: a frequency within 9.99 cents of [ref] is in tune, and a
    frequency above 0 that is 10.01 cents or more away from [ref] is
    not.  Between 9.99 and 10.01 cents the rounding of the doubles
    decides. *)
Theorem in_tune_band (f : R) (s : State) (ref : R) :
  0 < f ->
  ownProperty noteFrequencies (targetNote s) = Some ref ->
  (ref * Rpower 2 (- 9.99 / 1200) <= f <= ref * Rpower 2 (9.99 / 1200) ->
   inTune (checkTuning f s) = true) /\
  (f <= ref * Rpower 2 (- 10.01 / 1200)
   \/ ref * Rpower 2 (10.01 / 1200) <= f ->
   inTune (checkTuning f s) = false).
Proof.
  intros Hf Hown.
  pose proof (noteFrequencies_positive _ _ Hown) as Href.
  pose proof (tuning_band_over_reals f s ref Hf Hown) as Hband.
  assert (Hmono : forall a b, a < b -> ref * Rpower 2 a < ref * Rpower 2 b).
  { intros a b Hab. apply Rmult_lt_compat_l; [exact Href|].
    now apply Rpower_2_lt. }
  pose proof (Hmono (- 10 / 1200) (- 9.99 / 1200) ltac:(lra)) as Ha.
  pose proof (Hmono (9.99 / 1200) (10 / 1200) ltac:(lra)) as Hb.
  pose proof (Hmono (- 10.01 / 1200) (- 10 / 1200) ltac:(lra)) as Hc.
  pose proof (Hmono (10 / 1200) (10.01 / 1200) ltac:(lra)) as Hd.
  split.
  - intros [H1 H2]. apply Hband. lra.
  - intros Hout. destruct (inTune (checkTuning f s)); [|reflexivity].
    destruct (proj1 Hband eq_refl) as [H1 H2]. lra.
Qed.

Lemma in_tune_band_witness :
  let s := mkState "--" 0 "A4" false in
  inTune (checkTuning 440 s) = true /\
  inTune (checkTuning 880 s) = false.
Proof.
  intros s.
  assert (Hown : ownProperty noteFrequencies (targetNote s) = Some 440).
  { unfold s, noteFrequencies. cbn. f_equal. lra. }
  split.
  - apply (proj1 (in_tune_band 440 s 440 ltac:(lra) Hown)).
    pose proof (Rpower_2_lt (- 9.99 / 1200) 0 ltac:(lra)) as H1.
    pose proof (Rpower_2_lt 0 (9.99 / 1200) ltac:(lra)) as H2.
    rewrite Rpower_O in H1, H2 by lra. lra.
  - apply (proj2 (in_tune_band 880 s 440 ltac:(lra) Hown)). right.
    pose proof (Rpower_2_lt (10.01 / 1200) 1 ltac:(lra)) as H.
    rewrite Rpower_1 in H by lra. lra.
Defined.

(** *** The session *)

Lemma checkTuning_not_positive (f : R) (s : State) (ref : R) :
  ~ 0 < f ->
  ownProperty noteFrequencies (targetNote s) = Some ref ->
  checkTuning f s = withInTune s false.
Proof.
  intros Hf Hown. pose proof (noteFrequencies_positive _ _ Hown) as Href.
  unfold checkTuning, get. rewrite Hown, (nonZero_positive ref Href).
  unfold log2. destruct (Rlt_dec 0 (f / ref)) as [H|H]; [|reflexivity].
  exfalso. apply Hf.
  replace f with (f / ref * ref) by (field; lra).
  now apply Rmult_lt_0_compat.
Qed.

Lemma checkTuning_target (f : R) (s : State) :
  targetNote (checkTuning f s) = targetNote s /\
  currentNote (checkTuning f s) = currentNote s /\
  currentFrequency (checkTuning f s) = currentFrequency s.
Proof.
  unfold checkTuning.
  destruct (get noteFrequencies (targetNote s)) as [ref|k|]; auto.
  destruct (nonZero ref); auto.
  destruct (log2 (f / ref)); auto.
Qed.

(** The tuner after [checkTuning] on the frequency it holds and shows. *)
Lemma checkTuning_consistent (f : R) (t : State) :
  ownProperty noteFrequencies (targetNote t) <> None ->
  currentFrequency t = f ->
  (0 < f -> currentNote t = frequencyToNote f) ->
  let t' := checkTuning f t in
  ownProperty noteFrequencies (targetNote t') <> None /\
  (inTune t' = true -> 0 < currentFrequency t' /\ currentNote t' = targetNote t') /\
  (0 < currentFrequency t' -> currentNote t' = frequencyToNote (currentFrequency t')).
Proof.
  intros Hknown Hfreq Hnote t'.
  destruct (checkTuning_target f t) as (Ht & Hn & Hf). fold t' in Ht, Hn, Hf.
  rewrite Ht, Hn, Hf, Hfreq.
  split; [exact Hknown|]. split; [|exact Hnote].
  intros Htune.
  destruct (ownProperty noteFrequencies (targetNote t)) as [ref|] eqn:Hown;
    [|congruence].
  destruct (Rlt_dec 0 f) as [Hpos|Hneg].
  - split; [exact Hpos|].
    rewrite (Hnote Hpos). now apply (tuned_frequency_name f t ref).
  - unfold t' in Htune.
    rewrite (checkTuning_not_positive f t ref Hneg Hown) in Htune.
    discriminate.
Qed.

Lemma handle_consistent (e : Event) (s : Session.State) :
  knownTarget e -> consistent s -> consistent (handle e s).
Proof.
  intros Hknown (Htarget & Htune & Hnote).
  destruct e as [frequency clarity| |note]; simpl.
  - unfold Session.updatePitch.
    destruct (nonZero frequency && ltb Session.ninetenths clarity);
      [|split; [|split]; assumption].
    unfold consistent. cbn [Session.tuner].
    apply checkTuning_consistent; auto.
  - unfold consistent. simpl. split; [exact Htarget|]. split.
    + discriminate.
    + intros H. lra.
  - unfold consistent, Session.setTargetNote, Companion.setTargetNote.
    cbn [Session.tuner]. simpl currentFrequency.
    destruct (Rlt_dec 0 (currentFrequency (Session.tuner s))) as [Hpos|Hneg].
    + apply checkTuning_consistent; auto.
    + simpl. split; [exact Hknown|]. split; [|exact Hnote].
      intros H. destruct (Htune H) as [Hp _]. contradiction.
Qed.

(** X16.  From the start and through every sequence of frames, stops
    and choices of a target of the table, the session is in tune only
    while the note on display is the target, on a frequency above 0; and
    the note on display is the name of the frequency that is held. *)
Theorem session_in_tune_only_on_target (es : list Event) :
  Forall knownTarget es ->
  consistent (handleAll es Session.initial).
Proof.
  intros Hes.
  assert (H0 : consistent Session.initial).
  { unfold consistent. simpl. split; [discriminate|].
    split; [discriminate|]. intros H. lra. }
  revert H0. generalize Session.initial. unfold handleAll.
  induction Hes as [|e es He Hes IH]; intros s Hs; simpl; [exact Hs|].
  apply IH. now apply handle_consistent.
Qed.

Lemma session_in_tune_only_on_target_witness :
  consistent
    (handleAll [Frame 441 0.95; Target "A#4"; Frame 0 1; Frame 466 0.5; Stop]
       Session.initial).
Proof.
  apply session_in_tune_only_on_target.
  repeat constructor. simpl. discriminate.
Defined.

End MoreTuning.

(* ================================================================== *)
(** ** Loading, and the pitches of a parsed sheet                       *)
(* ================================================================== *)

Section Loading.
Import JS Sheet Display Notions MoreNotions.
Local Open Scope Z_scope.

Lemma showSheet_inSheet (sh : MusicSheet) (sheetName : string) (s : State) :
  0 <= bookmark s ->
  allNotes sh <> [] ->
  inSheet (showSheet sh sheetName s).
Proof.
  intros Hb Hne. exists sh. unfold showSheet. simpl bookmark.
  assert (Hlen : 0 < Z.of_nat (List.length (allNotes sh)))
    by (destruct (allNotes sh); [congruence|simpl; lia]).
  destruct (Z.geb_spec (bookmark s) (Z.of_nat (List.length (allNotes sh))));
    simpl; repeat split; auto; lia.
Qed.

(** X17.  Loading a sheet that has at least one note, with a bookmark
    that is not negative, leaves the cursor and the bookmark on notes of
    the sheet; each of the four sample sheets is such a sheet, so
    [connectedCallback] does so on every store whose bookmark is not
    negative. *)
Theorem loading_puts_cursor_in_sheet :
  (forall (sheets : list (string * string)) (sheetName abcNotation : string)
          (s : State),
     ownProperty sheets sheetName = Some abcNotation ->
     truthy abcNotation = true ->
     allNotes (parseABCNotation abcNotation) <> [] ->
     0 <= bookmark s ->
     exists s', loadSheetFrom sheets sheetName s = Normal s' /\ inSheet s') /\
  (forall (sheetName : string) (s : State),
     In sheetName (map fst sampleSheets) ->
     0 <= bookmark s ->
     exists s', loadSheet sheetName s = Normal s' /\ inSheet s') /\
  (forall store : Storage,
     0 <= bookmark (loadBookmark (initial store)) ->
     exists s', connectedCallback (initial store) = Normal s' /\ inSheet s').
Proof.
  assert (Hgen : forall sheets sheetName abcNotation s,
             ownProperty sheets sheetName = Some abcNotation ->
             truthy abcNotation = true ->
             allNotes (parseABCNotation abcNotation) <> [] ->
             0 <= bookmark s ->
             exists s', loadSheetFrom sheets sheetName s = Normal s'
                        /\ inSheet s').
  { intros sheets sheetName abcNotation s Hown Htruthy Hne Hb.
    unfold loadSheetFrom, get. rewrite Hown, Htruthy.
    eexists. split; [reflexivity|]. now apply showSheet_inSheet. }
  assert (Hsample : forall sheetName s,
             In sheetName (map fst sampleSheets) ->
             0 <= bookmark s ->
             exists s', loadSheet sheetName s = Normal s' /\ inSheet s').
  { intros sheetName s Hin Hb. simpl in Hin.
    destruct Hin as [<-|[<-|[<-|[<-|[]]]]];
      (eapply Hgen; [reflexivity | reflexivity | vm_compute; discriminate
                    | exact Hb]). }
  split; [exact Hgen|]. split; [exact Hsample|].
  intros store Hb. unfold connectedCallback.
  apply Hsample; [|exact Hb].
  unfold loadBookmark. simpl.
  destruct (getItem store bookmarkKey) as [saved|]; [|simpl; auto].
  destruct (truthy saved); simpl; auto.
Qed.

Lemma loading_puts_cursor_in_sheet_witness :
  exists s',
    connectedCallback (initial [(bookmarkKey, "17"%string)]) = Normal s'
    /\ inSheet s'.
Proof.
  apply (proj2 (proj2 loading_puts_cursor_in_sheet)).
  vm_compute. discriminate.
Defined.

End Loading.

Section ParsedPitches.
Import JS Sheet Companion Notions MoreNotions.

Lemma recognized_In (p : Pitch) (tokens : list string) :
  In p (recognized tokens) ->
  exists token, In token tokens /\ recognize token = Some p.
Proof.
  induction tokens as [|t rest IH]; simpl; [intros []|].
  destruct (recognize t) as [q|] eqn:E.
  - intros [<-|H]; [eauto|]. destruct (IH H) as (token & Hin & Hr). eauto.
  - intros H. destruct (IH H) as (token & Hin & Hr). eauto.
Qed.

Lemma ownProperty_In {A : Type} (obj : list (string * A)) (k : string) (v : A) :
  ownProperty obj k = Some v -> In v (map snd obj).
Proof.
  induction obj as [|[k' v'] rest IH]; simpl; [discriminate|].
  destruct (String.eqb k' k); [intros H; inversion H; auto|auto].
Qed.

Lemma recognize_Name (token name : string) :
  recognize token = Some (Name name) -> In name (map snd noteMap).
Proof.
  unfold recognize, parseNote.
  assert (H : forall (k : string) (dur : Number),
             option_map pitch
               match get noteMap k with
               | Own v =>
                   if truthy v then Some (mkNote (Name v) dur 0 0) else None
               | Inherited member =>
                   Some (mkNote (PrototypeMember member) dur 0 0)
               | Undefined => None
               end = Some (Name name) ->
             In name (map snd noteMap)).
  { intros k dur. unfold get.
    destruct (ownProperty noteMap k) as [v|] eqn:E.
    - destruct (truthy v); cbn [option_map pitch]; [|discriminate].
      intros Hv. injection Hv as <-. exact (ownProperty_In _ _ _ E).
    - destruct (existsb (String.eqb k) objectPrototype);
        cbn [option_map pitch]; discriminate. }
  destruct (durationMatch token) as [d|]; apply H.
Qed.

Ltac find_semitone :=
  first [ exists 60%Z; split; [lia|reflexivity] | exists 61%Z; split; [lia|reflexivity] | exists 62%Z; split; [lia|reflexivity] | exists 63%Z; split; [lia|reflexivity] | exists 64%Z; split; [lia|reflexivity] | exists 65%Z; split; [lia|reflexivity] | exists 66%Z; split; [lia|reflexivity] | exists 67%Z; split; [lia|reflexivity] | exists 68%Z; split; [lia|reflexivity] | exists 69%Z; split; [lia|reflexivity] | exists 70%Z; split; [lia|reflexivity] | exists 71%Z; split; [lia|reflexivity] | exists 72%Z; split; [lia|reflexivity] | exists 73%Z; split; [lia|reflexivity] | exists 74%Z; split; [lia|reflexivity] | exists 75%Z; split; [lia|reflexivity] | exists 76%Z; split; [lia|reflexivity] | exists 77%Z; split; [lia|reflexivity] | exists 78%Z; split; [lia|reflexivity] | exists 79%Z; split; [lia|reflexivity] | exists 80%Z; split; [lia|reflexivity] | exists 81%Z; split; [lia|reflexivity] | exists 82%Z; split; [lia|reflexivity] | exists 83%Z; split; [lia|reflexivity] ].

Lemma noteMap_semitones :
  Forall (fun name =>
            exists n : Z,
              (60 <= n <= 83)%Z /\
              (nth (Z.to_nat (n mod 12)) notes EmptyString
               ++ toString (n / 12 - 1))%string = name)
    (map snd noteMap).
Proof. simpl. repeat (constructor; [find_semitone|]). constructor. Qed.

(** X18.  Every pitch that is a string in a note of a parsed sheet is a
    name that the namer gives: the name of a semitone from 60 (C4) to 83
    (B5), which the namer returns for the equal-tempered frequency of that
    semitone, [440 * 2^((n - 69) / 12)].  So [checkNote] can be satisfied
    by what the namer detects. *)
Theorem parsed_pitches_are_names_of_the_namer (text : string) (note : Note)
    (name : string) :
  In note (allNotes (parseABCNotation text)) ->
  pitch note = Name name ->
  exists n : Z,
    (60 <= n <= 83)%Z /\
    semitoneName n = name /\
    frequencyToNote (440 * Rpower 2 ((IZR n - 69) / 12)) = name.
Proof.
  intros Hin Hp.
  assert (Hrec : In (Name name) (recognized (tokensOf text))).
  { rewrite <- allNotes_pitches, <- Hp. now apply in_map. }
  destruct (recognized_In _ _ Hrec) as (token & _ & Htoken).
  apply recognize_Name in Htoken.
  pose proof noteMap_semitones as Hall. rewrite Forall_forall in Hall.
  destruct (Hall name Htoken) as (n & Hn & Hname).
  exists n. split; [exact Hn|].
  assert (Hsem : semitoneName n = name)
    by (now rewrite semitoneName_div_mod).
  split; [exact Hsem|].
  rewrite <- Hsem.
  replace ((IZR n - 69) / 12)%R with ((IZR n - 69) / 12 + 0 / 1200)%R
    by (unfold Rdiv; ring).
  apply frequencyToNote_band. lra.
Qed.

Lemma parsed_pitches_are_names_of_the_namer_witness :
  exists n : Z,
    (60 <= n <= 83)%Z /\
    semitoneName n = "F#5"%string /\
    frequencyToNote (440 * Rpower 2 ((IZR n - 69) / 12)) = "F#5"%string.
Proof.
  apply (parsed_pitches_are_names_of_the_namer "G A | ^f2 g |"
           (mkNote (Name "F#5") (Finite 2) 1 2)).
  - vm_compute. auto.
  - reflexivity.
Defined.

End ParsedPitches.

(* ================================================================== *)
(** ** The names read from a score                                      *)
(* ================================================================== *)

Section ScoreNames.
Import JS Companion Notions MoreNotions Score.
Local Open Scope Z_scope.

Lemma semitoneName_in_octave (octave k : Z) :
  0 <= k < 12 ->
  semitoneName (12 * (octave + 4) + k)
  = (nth (Z.to_nat k) notes EmptyString ++ toString (octave + 3))%string.
Proof.
  intros Hk. rewrite semitoneName_div_mod.
  replace (12 * (octave + 4) + k) with (k + (octave + 4) * 12) by lia.
  rewrite Z.mod_add, Z.div_add by lia.
  rewrite Z.mod_small, Z.div_small by lia.
  do 2 f_equal. lia.
Qed.

Lemma getNoteString_sharpNameChars (notePitch : option Pitch) :
  allSharpNameChars (getNoteString notePitch) = true.
Proof.
  destruct notePitch as [[step octave alter]|]; [|reflexivity].
  unfold getNoteString. cbn [FundamentalNote Octave Accidental].
  destruct ((step >=? 0) && (step <? 7)) eqn:Hstep; [|reflexivity].
  apply andb_prop in Hstep. destruct Hstep as [H0 H7].
  apply Z.geb_le in H0. apply Z.ltb_lt in H7.
  rewrite allSharpNameChars_app, toString_sharpNameChars, andb_true_r.
  assert (Hn : (Z.to_nat step < 7)%nat) by lia.
  destruct (Z.to_nat step) as [|i]; [destruct (alter =? 1), (alter =? -1); reflexivity|].
  do 6 (destruct i as [|i];
        [destruct (alter =? 1), (alter =? -1); reflexivity|]).
  lia.
Qed.

(** X19.  The name that [getNoteString] reads from a note of a score is
    never a flat: it is empty, for a note without pitch or a step outside
    0 to 6, or made of a letter, an optional [#] and the octave plus 3.
    For the seven naturals, the five sharps and the five flats of the
    black keys it is the name that the namer gives to that semitone, a
    flat being written as the sharp below it. *)
Theorem getNoteString_agrees_with_namer :
  (forall notePitch : option Pitch,
     allSharpNameChars (getNoteString notePitch) = true) /\
  getNoteString None = EmptyString /\
  (forall step octave alter : Z,
     step < 0 \/ 7 <= step ->
     getNoteString (Some (mkPitch step octave alter)) = EmptyString) /\
  (forall step octave alter k : Z,
     In (step, alter, k) scoreSemitones ->
     getNoteString (Some (mkPitch step octave alter))
     = semitoneName (12 * (octave + 4) + k)).
Proof.
  split; [exact getNoteString_sharpNameChars|]. split; [reflexivity|]. split.
  - intros step octave alter Hstep. unfold getNoteString.
    cbn [FundamentalNote].
    destruct (Z.geb_spec step 0); destruct (Z.ltb_spec step 7);
      try reflexivity; lia.
  - intros step octave alter k Hin. simpl in Hin.
    repeat (destruct Hin as [E|Hin];
            [injection E as <- <- <-;
             rewrite semitoneName_in_octave by lia; reflexivity|]).
    destruct Hin.
Qed.

Lemma getNoteString_agrees_with_namer_witness :
  getNoteString (Some (mkPitch 6 1 (-1))) = "A#4"%string /\
  semitoneName (12 * (1 + 4) + 10) = "A#4"%string /\
  getNoteString (Some (mkPitch 9 1 0)) = EmptyString.
Proof.
  destruct getNoteString_agrees_with_namer as (_ & _ & Hout & Hagree).
  split; [reflexivity|]. split.
  - rewrite <- (Hagree 6 1 (-1) 10) by (simpl; tauto). reflexivity.
  - apply Hout. right. lia.
Defined.

End ScoreNames.

(* ================================================================== *)
(** ** The note namer and the tuning evaluator on doubles               *)
(* ================================================================== *)

Section Doubles.
Import JS Notions Double Companion64 DoubleNotions.
Import PrimFloat FloatOps SpecFloat FloatAxioms.
#[local] Set Warnings "-inexact-float".
Local Open Scope float_scope.


























(** *** The tuning evaluator on doubles *)










(** X20.  On doubles, whatever the frequency and the approximation of
    the logarithm: [checkTuning] changes neither the target nor the
    note and the frequency on display; against a target that is a note
    name without an entry in [noteFrequencies] it leaves the whole state
    as it is; against a target that [noteFrequencies] inherits from
    [Object.prototype] it sets [inTune] to false. *)
Theorem checkTuning_on_doubles_changes_inTune_only
    (approximation : float -> float) (frequency : float) (s : State) :
  targetNote (checkTuning approximation frequency s) = targetNote s /\
  currentNote (checkTuning approximation frequency s) = currentNote s /\
  currentFrequency (checkTuning approximation frequency s)
  = currentFrequency s /\
  (isNoteName (targetNote s) = true ->
   ownProperty noteFrequencies (targetNote s) = None ->
   checkTuning approximation frequency s = s) /\
  (In (targetNote s) objectPrototype ->
   inTune (checkTuning approximation frequency s) = false).
Proof.
  split; [|split; [|split; [|split]]].
  - unfold checkTuning.
    destruct (get noteFrequencies (targetNote s)) as [ref|k|]; auto.
    destruct (truthy ref); auto.
  - unfold checkTuning.
    destruct (get noteFrequencies (targetNote s)) as [ref|k|]; auto.
    destruct (truthy ref); auto.
  - unfold checkTuning.
    destruct (get noteFrequencies (targetNote s)) as [ref|k|]; auto.
    destruct (truthy ref); auto.
  - intros Hname Hnone. unfold checkTuning, get.
    now rewrite Hnone, (isNoteName_not_inherited _ Hname).
  - intros Hin. unfold checkTuning. simpl in Hin.
    repeat (destruct Hin as [E|Hin]; [rewrite <- E; reflexivity|]).
    destruct Hin.
Qed.

Lemma checkTuning_on_doubles_changes_inTune_only_witness :
  let s := mkState "A4" 441 "C9" true in
  checkTuning (fun x => x) 441 s = s.
Proof.
  intros s.
  apply (checkTuning_on_doubles_changes_inTune_only (fun x => x) 441 s);
    reflexivity.
Defined.

End Doubles.
